(** * carebt_ros2: navigation nodes, knowledge-store relay and SimpleKb

    A shallow embedding of
      - carebt_nav2/navigation_nodes.py      (module [Nav]),
      - carebt_ros2/plugins/kb_tinydb.py     (module [KbTiny]),
      - carebt_simple_kb/simple_kb.py        (module [SimpleKb] for the store in
                                              memory, [SimpleKbDisk] for its file),
    followed by the properties proved about them.

    Python objects are records, attribute writes are record updates, dicts are
    finite maps, exceptions are values of [PyExn] carried by [Result].  What the
    code obtains from outside (transform lookups, action results, the clock,
    uuid4, the Python evaluator behind exec) enters as an argument. *)

From Stdlib Require Import ZArith String Ascii List Bool Lia.
From stdpp Require Import gmap strings list fin_maps.
Import ListNotations.

Local Open Scope Z_scope.
Local Open Scope string_scope.

(** ** Python exceptions and results *)

(** The exception classes that occur in the modelled code, with the part of the
    built-in class hierarchy that an except clause can see. *)
Inductive PyExn : Type :=
| AttributeError
| RuntimeError
| NotImplementedError
| RecursionError
| SyntaxError
| TypeError
| NameError
| KeyError
| ValueError
| OSError.

(** [subclass_of e c]: issubclass(e, c) for the classes above
    (NotImplementedError and RecursionError derive from RuntimeError). *)
Definition subclass_of (e c : PyExn) : bool :=
  match c, e with
  | AttributeError, AttributeError => true
  | RuntimeError, (RuntimeError | NotImplementedError | RecursionError) => true
  | NotImplementedError, NotImplementedError => true
  | RecursionError, RecursionError => true
  | SyntaxError, SyntaxError => true
  | TypeError, TypeError => true
  | NameError, NameError => true
  | KeyError, KeyError => true
  | ValueError, ValueError => true
  | OSError, OSError => true
  | _, _ => false
  end.

(** str(cls) of an exception class, as str(sys.exc_info()[0]) prints it. *)
Definition class_repr (e : PyExn) : string :=
  match e with
  | AttributeError => "<class 'AttributeError'>"
  | RuntimeError => "<class 'RuntimeError'>"
  | NotImplementedError => "<class 'NotImplementedError'>"
  | RecursionError => "<class 'RecursionError'>"
  | SyntaxError => "<class 'SyntaxError'>"
  | TypeError => "<class 'TypeError'>"
  | NameError => "<class 'NameError'>"
  | KeyError => "<class 'KeyError'>"
  | ValueError => "<class 'ValueError'>"
  | OSError => "<class 'OSError'>"
  end.

(** The outcome of a call: it returns a value or an exception leaves it. *)
Inductive Result (A : Type) : Type :=
| Return (a : A)
| Raise (e : PyExn).
Arguments Return {A} a.
Arguments Raise {A} e.

Definition returns {A} (r : Result A) : bool :=
  match r with Return _ => true | Raise _ => false end.

(** Binding the positional arguments of a call to the parameters a def
    declares after self: a mismatch in number is a TypeError raised before
    the body runs. *)
Definition bind_args {V} (params : list string) (args : list V)
  : Result (list (string * V)) :=
  if (length params =? length args)%nat
  then Return (combine params args)
  else Raise TypeError.

(** * navigation_nodes.py *)
Module Nav.

(** Modelled from the spec: carebt.nodeStatus.NodeStatus, the enum of section 3
    (the type lives in the carebt library, not in this repository). *)
Inductive NodeStatus : Type := RUNNING | SUSPENDED | SUCCESS | FAILURE.

#[global] Instance NodeStatus_eq_dec : EqDecision NodeStatus.
Proof. solve_decision. Defined.

Definition terminal (s : NodeStatus) : bool :=
  match s with SUCCESS | FAILURE => true | RUNNING | SUSPENDED => false end.

(** action_msgs.msg.GoalStatus: int8 status codes of an action goal. *)
Definition STATUS_UNKNOWN : Z := 0.
Definition STATUS_ACCEPTED : Z := 1.
Definition STATUS_EXECUTING : Z := 2.
Definition STATUS_CANCELING : Z := 3.
Definition STATUS_SUCCEEDED : Z := 4.
Definition STATUS_CANCELED : Z := 5.
Definition STATUS_ABORTED : Z := 6.

(** Messages.  Coordinates are integers standing for the float64 fields: the
    nodes only store, forward and compare these values. *)
Record PoseStamped : Type := mkPose { frame_id : string; pos_x : Z; pos_y : Z }.
Definition Path : Type := list PoseStamped.

#[global] Instance PoseStamped_eq_dec : EqDecision PoseStamped.
Proof. solve_decision. Defined.

(** The classes of navigation_nodes.py. *)
Inductive NodeClass : Type :=
| InitPoseAction
| WaitForLocalizationTF
| GetCurrentPose
| GetPoseWithCovFromPose
| ComputePathToPoseAction
| ComputePathThroughPosesAction
| ComputePathToPoseActionRateLoop
| ComputePathThroughPosesActionRateLoop
| CreateFollowPathFeedback
| FollowPathAction
| ApproachPose
| ApproachPoseThroughPoses.

#[global] Instance NodeClass_eq_dec : EqDecision NodeClass.
Proof. solve_decision. Defined.

Definition class_name (c : NodeClass) : string :=
  match c with
  | InitPoseAction => "InitPoseAction"
  | WaitForLocalizationTF => "WaitForLocalizationTF"
  | GetCurrentPose => "GetCurrentPose"
  | GetPoseWithCovFromPose => "GetPoseWithCovFromPose"
  | ComputePathToPoseAction => "ComputePathToPoseAction"
  | ComputePathThroughPosesAction => "ComputePathThroughPosesAction"
  | ComputePathToPoseActionRateLoop => "ComputePathToPoseActionRateLoop"
  | ComputePathThroughPosesActionRateLoop => "ComputePathThroughPosesActionRateLoop"
  | CreateFollowPathFeedback => "CreateFollowPathFeedback"
  | FollowPathAction => "FollowPathAction"
  | ApproachPose => "ApproachPose"
  | ApproachPoseThroughPoses => "ApproachPoseThroughPoses"
  end.

(** ** The state every node inherits from carebt's TreeNode

    status and contingency message are plain attributes of the node, written
    by set_status and set_contingency_message; the timeout is the value given
    to set_timeout; [log] collects what the node hands to its logger. *)
Record TreeNode : Type := mkTreeNode {
  status : NodeStatus;
  contingency_message : string;
  timeout_ms : option Z;
  log : list string
}.

Definition set_status (s : NodeStatus) (n : TreeNode) : TreeNode :=
  mkTreeNode s (contingency_message n) (timeout_ms n) (log n).

Definition set_contingency_message (m : string) (n : TreeNode) : TreeNode :=
  mkTreeNode (status n) m (timeout_ms n) (log n).

Definition set_timeout (ms : Z) (n : TreeNode) : TreeNode :=
  mkTreeNode (status n) (contingency_message n) (Some ms) (log n).

Definition log_info (line : string) (n : TreeNode) : TreeNode :=
  mkTreeNode (status n) (contingency_message n) (timeout_ms n) (log n ++ [line]).

(** Modelled from the spec: a node as its constructor leaves it, before its
    first activation: RUNNING by default (section 4.1), no message, no timeout. *)
Definition new_tree_node : TreeNode := mkTreeNode RUNNING "" None [].

(** ** ComputePathToPoseAction and ComputePathThroughPosesAction *)

(** The goal message of the planning actions (ComputePathToPose.Goal and
    ComputePathThroughPoses.Goal: the first fills [g_goal], the second
    [g_goals]). *)
Record PlanGoal : Type := mkPlanGoal {
  g_start : option PoseStamped;
  g_use_start : bool;
  g_goal : option PoseStamped;
  g_goals : list PoseStamped;
  g_planner_id : string
}.

Definition empty_plan_goal : PlanGoal := mkPlanGoal None false None [] "".

(** A planner node: the TreeNode part, the bound parameters ?start, ?goal or
    ?goals, the output ?path, and the goal message the action client sends. *)
Record Planner : Type := mkPlanner {
  pl_node : TreeNode;
  pl_start : option PoseStamped;
  pl_goal : option PoseStamped;
  pl_goals : list PoseStamped;
  pl_path : option Path;
  pl_goal_msg : PlanGoal
}.

Definition planner_with_node (n : TreeNode) (p : Planner) : Planner :=
  mkPlanner n (pl_start p) (pl_goal p) (pl_goals p) (pl_path p) (pl_goal_msg p).

Definition planner_with_path (path : option Path) (p : Planner) : Planner :=
  mkPlanner (pl_node p) (pl_start p) (pl_goal p) (pl_goals p) path (pl_goal_msg p).

Definition planner_with_goal_msg (g : PlanGoal) (p : Planner) : Planner :=
  mkPlanner (pl_node p) (pl_start p) (pl_goal p) (pl_goals p) (pl_path p) g.

(** future.result(): the status code and the result message's path. *)
Record PlanResult : Type := mkPlanResult { res_status : Z; res_path : Path }.

(** ComputePathToPoseAction.on_tick *)
Definition ComputePathToPoseAction_on_tick (p : Planner) : Planner :=
  let p := planner_with_node (set_status SUSPENDED (pl_node p)) p in
  let g := pl_goal_msg p in
  let g :=
    match pl_start p with
    | Some s => mkPlanGoal (Some s) true (g_goal g) (g_goals g) (g_planner_id g)
    | None => mkPlanGoal (g_start g) false (g_goal g) (g_goals g) (g_planner_id g)
    end in
  let g := mkPlanGoal (g_start g) (g_use_start g) (pl_goal p) (g_goals g) (g_planner_id g) in
  let g := mkPlanGoal (g_start g) (g_use_start g) (g_goal g) (g_goals g) "" in
  planner_with_goal_msg g p.

(** ComputePathToPoseAction.result_callback *)
Definition ComputePathToPoseAction_result_callback (r : PlanResult) (p : Planner) : Planner :=
  if decide (res_status r = STATUS_SUCCEEDED) then
    let p := planner_with_path (Some (res_path r)) p in
    planner_with_node (set_status SUCCESS (pl_node p)) p
  else if decide (res_status r = STATUS_ABORTED) then
    p
  else p.

(** ComputePathThroughPosesAction.on_tick *)
Definition ComputePathThroughPosesAction_on_tick (p : Planner) : Planner :=
  let p := planner_with_node (set_status SUSPENDED (pl_node p)) p in
  let g := pl_goal_msg p in
  let g :=
    match pl_start p with
    | Some s => mkPlanGoal (Some s) true (g_goal g) (g_goals g) (g_planner_id g)
    | None => mkPlanGoal (g_start g) false (g_goal g) (g_goals g) (g_planner_id g)
    end in
  let g := mkPlanGoal (g_start g) (g_use_start g) (g_goal g) (pl_goals p) (g_planner_id g) in
  let g := mkPlanGoal (g_start g) (g_use_start g) (g_goal g) (g_goals g) "" in
  planner_with_goal_msg g p.

(** ComputePathThroughPosesAction.result_callback *)
Definition ComputePathThroughPosesAction_result_callback (r : PlanResult) (p : Planner) : Planner :=
  if decide (res_status r = STATUS_SUCCEEDED) then
    let p := planner_with_path (Some (res_path r)) p in
    planner_with_node (set_status SUCCESS (pl_node p)) p
  else if decide (res_status r = STATUS_ABORTED) then
    p
  else p.

(** ** FollowPathAction *)

(** FollowPath.Goal *)
Record FollowGoal : Type := mkFollowGoal { fg_path : Path }.

Record Follower : Type := mkFollower {
  fo_node : TreeNode;
  fo_path : option Path;           (* self._path, the ?path input *)
  fo_current_path : option Path;   (* self._current_path *)
  fo_goal_msg : option FollowGoal  (* self._goal_msg *)
}.

(** FollowPathAction.__init__ *)
Definition FollowPathAction_init : Follower :=
  mkFollower new_tree_node None None None.

(** self._current_path != self._path, for a path that is not None: None
    differs from every path, two paths differ when their values do. *)
Definition path_differs (current : option Path) (path : Path) : bool :=
  match current with
  | None => true
  | Some c => bool_decide (c <> path)
  end.

(** FollowPathAction.on_tick *)
Definition FollowPathAction_on_tick (f : Follower) : Follower :=
  let f := mkFollower (fo_node f) (fo_path f) (fo_current_path f) None in
  match fo_path f with
  | Some path =>
      if path_differs (fo_current_path f) path then
        let f := mkFollower (fo_node f) (fo_path f) (fo_current_path f)
                            (Some (mkFollowGoal path)) in
        mkFollower (fo_node f) (fo_path f) (fo_path f) (fo_goal_msg f)
      else f
  | None => f
  end.

(** FollowPathAction.result_callback; [uuid] is the goal handle's id, which
    only goes to the log. *)
Definition FollowPathAction_result_callback (st : Z) (uuid : string) (f : Follower) : Follower :=
  if decide (st = STATUS_SUCCEEDED) then
    let n := log_info ("FollowPathAction - GoalStatus.STATUS_SUCCEEDED - " ++ uuid) (fo_node f) in
    let n := set_status SUCCESS n in
    mkFollower n (fo_path f) (fo_current_path f) (fo_goal_msg f)
  else if decide (st = STATUS_ABORTED) then
    let n := log_info ("FollowPathAction - GoalStatus.STATUS_ABORTED - " ++ uuid) (fo_node f) in
    mkFollower n (fo_path f) (fo_current_path f) (fo_goal_msg f)
  else f.

(** ** WaitForLocalizationTF and GetCurrentPose: nodes with a poll worker

    The worker runs on a thread of its own.  Its position in the loop body is
    [WorkerPc]; one step runs from one such position to the next, and the
    timeout handler, run by the tick loop's thread, may come between any two
    steps. *)
Inductive WorkerPc : Type :=
| NotStarted   (* no thread yet *)
| AtCheck      (* at the top of the loop: if(not self.__thread_running) *)
| AtLookup     (* past the check: about to query tf and to act on the answer *)
| AtSleep      (* in sleep(0.1) *)
| Exited.      (* left the loop *)

#[global] Instance WorkerPc_eq_dec : EqDecision WorkerPc.
Proof. solve_decision. Defined.

(** What one transform lookup of WaitForLocalizationTF.__worker gives:
    lookup_transform raises TransformException, or it returns a transform and
    the comparison of that transform with ?initial_pose (within the square
    roots of covariance[0] and covariance[7]) is [within]. *)
Inductive TfLookup : Type :=
| TfRaised
| TfFound (within : bool).

Definition tf_completes (l : TfLookup) : bool :=
  match l with TfFound true => true | _ => false end.

Record Localizer : Type := mkLocalizer {
  lo_node : TreeNode;
  lo_thread_running : bool   (* self.__thread_running *)
}.

(** WaitForLocalizationTF.__init__ *)
Definition WaitForLocalizationTF_init : Localizer :=
  mkLocalizer (set_timeout 5000 new_tree_node) false.

(** WaitForLocalizationTF.on_init: the node and the program counter of the
    thread it starts. *)
Definition WaitForLocalizationTF_on_init (l : Localizer) : Localizer * WorkerPc :=
  let l := mkLocalizer (set_status SUSPENDED (lo_node l)) (lo_thread_running l) in
  let l := mkLocalizer (lo_node l) true in
  (l, AtCheck).

(** WaitForLocalizationTF.__worker, one step. *)
Definition WaitForLocalizationTF_worker_step (env : TfLookup) (s : Localizer * WorkerPc)
  : Localizer * WorkerPc :=
  let (l, pc) := s in
  match pc with
  | NotStarted => s
  | AtCheck => if negb (lo_thread_running l) then (l, Exited) else (l, AtLookup)
  | AtLookup =>
      match env with
      | TfFound true =>
          let n := log_info "WaitForLocalizationTF - localization pose ok" (lo_node l) in
          let n := set_status SUCCESS n in
          (mkLocalizer n (lo_thread_running l), Exited)
      | TfFound false => (l, AtSleep)
      | TfRaised => (l, AtSleep)
      end
  | AtSleep => (l, AtCheck)
  | Exited => s
  end.

(** WaitForLocalizationTF.on_timeout *)
Definition WaitForLocalizationTF_on_timeout (l : Localizer) : Localizer :=
  let l := mkLocalizer (lo_node l) false in
  let l := mkLocalizer (set_status FAILURE (lo_node l)) (lo_thread_running l) in
  mkLocalizer (set_contingency_message "NOT_LOCALIZED" (lo_node l)) (lo_thread_running l).

Record PoseGetter : Type := mkPoseGetter {
  pg_node : TreeNode;
  pg_thread_running : bool;       (* self.__thread_running *)
  pg_pose : option PoseStamped    (* self._pose, the ?pose output *)
}.

(** GetCurrentPose.__init__ *)
Definition GetCurrentPose_init : PoseGetter :=
  mkPoseGetter (set_timeout 3000 new_tree_node) false None.

(** GetCurrentPose.on_init *)
Definition GetCurrentPose_on_init (g : PoseGetter) : PoseGetter * WorkerPc :=
  let g := mkPoseGetter (set_status SUSPENDED (pg_node g)) (pg_thread_running g) (pg_pose g) in
  let g := mkPoseGetter (pg_node g) true (pg_pose g) in
  (g, AtCheck).

(** GetCurrentPose.__worker, one step; [env] is what get_current_pose
    returns (None when the transform is not available). *)
Definition GetCurrentPose_worker_step (env : option PoseStamped) (s : PoseGetter * WorkerPc)
  : PoseGetter * WorkerPc :=
  let (g, pc) := s in
  match pc with
  | NotStarted => s
  | AtCheck => if negb (pg_thread_running g) then (g, Exited) else (g, AtLookup)
  | AtLookup =>
      let g := mkPoseGetter (pg_node g) (pg_thread_running g) env in
      match pg_pose g with
      | Some _ => (mkPoseGetter (set_status SUCCESS (pg_node g)) (pg_thread_running g) (pg_pose g), Exited)
      | None => (g, AtSleep)
      end
  | AtSleep => (g, AtCheck)
  | Exited => s
  end.

(** GetCurrentPose.on_timeout *)
Definition GetCurrentPose_on_timeout (g : PoseGetter) : PoseGetter :=
  let g := mkPoseGetter (pg_node g) false (pg_pose g) in
  let g := mkPoseGetter (set_status FAILURE (pg_node g)) (pg_thread_running g) (pg_pose g) in
  mkPoseGetter (set_contingency_message "CURRENT_POSE_NOT_AVAILABLE" (pg_node g))
               (pg_thread_running g) (pg_pose g).

(** What can happen to a node with a poll worker: its worker takes a step
    (with the answer of the lookup, used when the step is the lookup), or the
    timeout of the node fires. *)
Inductive PollEvent (L : Type) : Type :=
| WorkerStep (env : L)
| TimeoutFires.
Arguments WorkerStep {L} env.
Arguments TimeoutFires {L}.

(** Modelled from the spec: the tick loop's timeout check, which lives in the
    carebt library: on expiry a node in a non-terminal status has its
    on_timeout called (sections 4.1 and 7); a terminal node is left alone. *)
Definition fire_timeout {N} (node_status : N -> NodeStatus) (on_timeout : N -> N) (n : N) : N :=
  if terminal (node_status n) then n else on_timeout n.

Definition Localizer_event (e : PollEvent TfLookup) (s : Localizer * WorkerPc)
  : Localizer * WorkerPc :=
  match e with
  | WorkerStep env => WaitForLocalizationTF_worker_step env s
  | TimeoutFires =>
      (fire_timeout (fun l => status (lo_node l)) WaitForLocalizationTF_on_timeout (fst s), snd s)
  end.

Definition PoseGetter_event (e : PollEvent (option PoseStamped)) (s : PoseGetter * WorkerPc)
  : PoseGetter * WorkerPc :=
  match e with
  | WorkerStep env => GetCurrentPose_worker_step env s
  | TimeoutFires =>
      (fire_timeout (fun g => status (pg_node g)) GetCurrentPose_on_timeout (fst s), snd s)
  end.

(** A schedule, run from left to right. *)
Definition run_events {E S} (step : E -> S -> S) (es : list E) (s : S) : S :=
  fold_left (fun s e => step e s) es s.

Definition Localizer_run := run_events Localizer_event.
Definition PoseGetter_run := run_events PoseGetter_event.

(** Worker steps whose lookups are [envs], in this order. *)
Definition worker_steps {L} (envs : list L) : list (PollEvent L) := map WorkerStep envs.

(** ** Contingency handlers and the rate-controlled planning loops *)

(** The handler procedures registered in this file: the bound method
    handle_path_ok of the two rate loops. *)
Inductive Handler : Type := handle_path_ok.

(** One registration: register_contingency_handler(node class, trigger
    statuses, message pattern, handler). *)
Record ContingencyHandler : Type := mkContingencyHandler {
  ch_class : NodeClass;
  ch_statuses : list NodeStatus;
  ch_pattern : string;
  ch_handler : Handler
}.

(** Modelled from the spec: the match of a contingency message against a
    handler's pattern (section 4.4; carebt does it with Python's re.match).
    Patterns of literal characters, '.' (any character but a newline) and a
    postfix '*'; the match is anchored at the start of the message only. *)
Definition char_matches (p c : ascii) : bool :=
  if Ascii.eqb p "." then negb (Ascii.eqb c "010") else Ascii.eqb p c.

Fixpoint match_here (re text : list ascii) {struct re} : bool :=
  match re with
  | [] => true
  | p :: re1 =>
      match re1 with
      | "*"%char :: re2 =>
          (fix star (t : list ascii) : bool :=
             match_here re2 t ||
             match t with
             | c :: t' => char_matches p c && star t'
             | [] => false
             end) text
      | _ =>
          match text with
          | c :: t' => char_matches p c && match_here re1 t'
          | [] => false
          end
      end
  end.

Definition re_match (pattern message : string) : bool :=
  match_here (list_ascii_of_string pattern) (list_ascii_of_string message).

(** A rate-control node with a planner as its child: the TreeNode part, the
    rate, the parameter string, the bound inputs, the ?path output, the child
    class and parameters given to set_child, the registered handlers in
    registration order, the current child instance and the time of its last
    activation. *)
Record RateLoop : Type := mkRateLoop {
  rl_node : TreeNode;
  rl_rate_ms : Z;
  rl_params : string;
  rl_start : option PoseStamped;
  rl_goal : option PoseStamped;
  rl_goals : list PoseStamped;
  rl_path : option Path;
  rl_child_class : option NodeClass;
  rl_child_params : string;
  rl_handlers : list ContingencyHandler;
  rl_child : option Planner;
  rl_last_ts : option Z
}.

Definition rl_with_node (n : TreeNode) (w : RateLoop) : RateLoop :=
  mkRateLoop n (rl_rate_ms w) (rl_params w) (rl_start w) (rl_goal w) (rl_goals w)
             (rl_path w) (rl_child_class w) (rl_child_params w) (rl_handlers w)
             (rl_child w) (rl_last_ts w).

Definition rl_with_path (path : option Path) (w : RateLoop) : RateLoop :=
  mkRateLoop (rl_node w) (rl_rate_ms w) (rl_params w) (rl_start w) (rl_goal w) (rl_goals w)
             path (rl_child_class w) (rl_child_params w) (rl_handlers w)
             (rl_child w) (rl_last_ts w).

Definition rl_with_child (c : option Planner) (w : RateLoop) : RateLoop :=
  mkRateLoop (rl_node w) (rl_rate_ms w) (rl_params w) (rl_start w) (rl_goal w) (rl_goals w)
             (rl_path w) (rl_child_class w) (rl_child_params w) (rl_handlers w)
             c (rl_last_ts w).

Definition rl_with_last_ts (t : option Z) (w : RateLoop) : RateLoop :=
  mkRateLoop (rl_node w) (rl_rate_ms w) (rl_params w) (rl_start w) (rl_goal w) (rl_goals w)
             (rl_path w) (rl_child_class w) (rl_child_params w) (rl_handlers w)
             (rl_child w) t.

(** The inputs bound by the parent when it creates the loop. *)
Definition rl_bind (start goal : option PoseStamped) (goals : list PoseStamped) (w : RateLoop)
  : RateLoop :=
  mkRateLoop (rl_node w) (rl_rate_ms w) (rl_params w) start goal goals
             (rl_path w) (rl_child_class w) (rl_child_params w) (rl_handlers w)
             (rl_child w) (rl_last_ts w).

(** Modelled from the spec: RateControlNode.__init__(bt, rate_ms, params) of
    the carebt library: no child, no handler, nothing activated yet. *)
Definition RateControlNode_init (rate_ms : Z) (params : string) : RateLoop :=
  mkRateLoop new_tree_node rate_ms params None None [] None None "" [] None None.

(** Modelled from the spec: set_child of the carebt library records the class
    and the parameter string of the single child (section 4.5). *)
Definition set_child (cls : NodeClass) (params : string) (w : RateLoop) : RateLoop :=
  mkRateLoop (rl_node w) (rl_rate_ms w) (rl_params w) (rl_start w) (rl_goal w) (rl_goals w)
             (rl_path w) (Some cls) params (rl_handlers w) (rl_child w) (rl_last_ts w).

(** Modelled from the spec: register_contingency_handler of the carebt library
    adds an entry behind those registered before (sections 3 and 4.4). *)
Definition register_contingency_handler (cls : NodeClass) (statuses : list NodeStatus)
    (pattern : string) (h : Handler) (w : RateLoop) : RateLoop :=
  mkRateLoop (rl_node w) (rl_rate_ms w) (rl_params w) (rl_start w) (rl_goal w) (rl_goals w)
             (rl_path w) (rl_child_class w) (rl_child_params w)
             (rl_handlers w ++ [mkContingencyHandler cls statuses pattern h])
             (rl_child w) (rl_last_ts w).

(** Modelled from the spec: set_current_child_status of the carebt library
    writes the status of the current child (section 4.4). *)
Definition set_current_child_status (s : NodeStatus) (w : RateLoop) : RateLoop :=
  match rl_child w with
  | Some c => rl_with_child (Some (planner_with_node (set_status s (pl_node c)) c)) w
  | None => w
  end.

(** ComputePathToPoseActionRateLoop.__init__ *)
Definition ComputePathToPoseActionRateLoop_init : RateLoop :=
  let w := RateControlNode_init 1000 "?start ?goal => ?path" in
  let w := rl_with_path None w in
  let w := set_child ComputePathToPoseAction "?start ?goal => ?path" w in
  register_contingency_handler ComputePathToPoseAction [SUCCESS] ".*" handle_path_ok w.

(** ComputePathToPoseActionRateLoop.handle_path_ok *)
Definition ComputePathToPoseActionRateLoop_handle_path_ok (w : RateLoop) : RateLoop :=
  set_current_child_status RUNNING w.

(** ComputePathThroughPosesActionRateLoop.__init__ *)
Definition ComputePathThroughPosesActionRateLoop_init : RateLoop :=
  let w := RateControlNode_init 1000 "?start ?goals => ?path" in
  let w := rl_with_path None w in
  let w := set_child ComputePathThroughPosesAction "?start ?goals => ?path" w in
  register_contingency_handler ComputePathThroughPosesAction [SUCCESS] ".*" handle_path_ok w.

(** ComputePathThroughPosesActionRateLoop.handle_path_ok *)
Definition ComputePathThroughPosesActionRateLoop_handle_path_ok (w : RateLoop) : RateLoop :=
  set_current_child_status RUNNING w.

(** The handler a registration names, as a method of the loop of class [self]. *)
Definition run_handler (self : NodeClass) (h : Handler) (w : RateLoop) : RateLoop :=
  match h, self with
  | handle_path_ok, ComputePathToPoseActionRateLoop =>
      ComputePathToPoseActionRateLoop_handle_path_ok w
  | handle_path_ok, ComputePathThroughPosesActionRateLoop =>
      ComputePathThroughPosesActionRateLoop_handle_path_ok w
  | handle_path_ok, _ => w
  end.

(** on_tick and result_callback of the child, by its class. *)
Definition child_on_tick (cls : NodeClass) (p : Planner) : Planner :=
  match cls with
  | ComputePathToPoseAction => ComputePathToPoseAction_on_tick p
  | ComputePathThroughPosesAction => ComputePathThroughPosesAction_on_tick p
  | _ => p
  end.

Definition child_result_callback (cls : NodeClass) (r : PlanResult) (p : Planner) : Planner :=
  match cls with
  | ComputePathToPoseAction => ComputePathToPoseAction_result_callback r p
  | ComputePathThroughPosesAction => ComputePathThroughPosesAction_result_callback r p
  | _ => p
  end.

(** Modelled from the spec: the contingency dispatch of a composite node
    (section 4.4), which lives in the carebt library.  An entry matches a child
    when it names the child's class, its trigger set holds the child's status
    and its pattern matches the child's contingency message; the first
    matching entry in registration order runs its handler; with no match
    nothing changes. *)
Definition handler_matches (cls : NodeClass) (child : TreeNode) (h : ContingencyHandler) : bool :=
  bool_decide (ch_class h = cls) &&
  bool_decide (status child ∈ ch_statuses h) &&
  re_match (ch_pattern h) (contingency_message child).

Definition apply_contingencies (self : NodeClass) (w : RateLoop) : RateLoop :=
  match rl_child w, rl_child_class w with
  | Some c, Some cls =>
      match find (handler_matches cls (pl_node c)) (rl_handlers w) with
      | Some h => run_handler self (ch_handler h) w
      | None => w
      end
  | _, _ => w
  end.

(** Modelled from the spec: one tick of a rate-control node (section 4.5),
    which lives in the carebt library.  When no child is active or the rate
    interval has passed since the last activation, the child is created anew
    with the loop's bindings and ticked; the contingency handlers see the
    child's status; the child's path output is published; a terminal status
    that is left on the child becomes the loop's own, otherwise the loop
    reports RUNNING. *)
Definition rate_due (now : Z) (w : RateLoop) : bool :=
  match rl_child w, rl_last_ts w with
  | Some _, Some t => (t + rl_rate_ms w <=? now)%Z
  | _, _ => true
  end.

Definition new_child (w : RateLoop) : Planner :=
  mkPlanner new_tree_node (rl_start w) (rl_goal w) (rl_goals w) None empty_plan_goal.

Definition rate_tick (self : NodeClass) (now : Z) (w : RateLoop) : RateLoop :=
  let w :=
    if rate_due now w then
      match rl_child_class w with
      | Some cls =>
          rl_with_last_ts (Some now) (rl_with_child (Some (child_on_tick cls (new_child w))) w)
      | None => w
      end
    else w in
  let w := apply_contingencies self w in
  match rl_child w with
  | Some c =>
      let w := match pl_path c with Some path => rl_with_path (Some path) w | None => w end in
      if terminal (status (pl_node c))
      then rl_with_node (set_contingency_message (contingency_message (pl_node c))
                           (set_status (status (pl_node c)) (rl_node w))) w
      else rl_with_node (set_status RUNNING (rl_node w)) w
  | None => w
  end.

(** What happens to a rate loop: the tree ticks it at time [now]; the action
    client delivers a result to the child's result_callback; or something
    else writes the child's status and message (a timeout, for one). *)
Inductive RateEvent : Type :=
| RTick (now : Z)
| RResult (r : PlanResult)
| RChildWrite (s : NodeStatus) (msg : string).

Definition rate_event (self : NodeClass) (e : RateEvent) (w : RateLoop) : RateLoop :=
  match e with
  | RTick now => rate_tick self now w
  | RResult r =>
      match rl_child w, rl_child_class w with
      | Some c, Some cls => rl_with_child (Some (child_result_callback cls r c)) w
      | _, _ => w
      end
  | RChildWrite s msg =>
      match rl_child w with
      | Some c =>
          rl_with_child
            (Some (planner_with_node (set_contingency_message msg (set_status s (pl_node c))) c)) w
      | None => w
      end
  end.

Definition rate_run (self : NodeClass) := run_events (rate_event self).

(** The child never fails: no event writes FAILURE to it. *)
Definition child_never_fails (e : RateEvent) : bool :=
  match e with
  | RChildWrite FAILURE _ => false
  | _ => true
  end.

(** ** ApproachPose and ApproachPoseThroughPoses *)

(** The base class each class of the file is declared with. *)
Inductive BaseClass : Type :=
| ActionNode
| RosActionClientActionNode
| RateControlNode
| ParallelNode.

Definition base_class (c : NodeClass) : BaseClass :=
  match c with
  | InitPoseAction | WaitForLocalizationTF | GetCurrentPose
  | GetPoseWithCovFromPose | CreateFollowPathFeedback => ActionNode
  | ComputePathToPoseAction | ComputePathThroughPosesAction
  | FollowPathAction => RosActionClientActionNode
  | ComputePathToPoseActionRateLoop | ComputePathThroughPosesActionRateLoop => RateControlNode
  | ApproachPose | ApproachPoseThroughPoses => ParallelNode
  end.

Record Parallel : Type := mkParallel {
  pa_node : TreeNode;
  pa_success_threshold : Z;
  pa_params : string;
  pa_children : list (NodeClass * string)
}.

(** Modelled from the spec: ParallelNode.__init__(bt_runner, success_threshold,
    params) of the carebt library: no child yet (section 4.6). *)
Definition ParallelNode_init (success_threshold : Z) (params : string) : Parallel :=
  mkParallel new_tree_node success_threshold params [].

(** Modelled from the spec: add_child of the carebt library puts the child
    behind those added before (section 4.6: an ordered list of children). *)
Definition add_child (cls : NodeClass) (params : string) (p : Parallel) : Parallel :=
  mkParallel (pa_node p) (pa_success_threshold p) (pa_params p) (pa_children p ++ [(cls, params)]).

(** ApproachPose.__init__ *)
Definition ApproachPose_init : Parallel := ParallelNode_init 1 "?goal => ?feedback".

(** ApproachPose.on_init *)
Definition ApproachPose_on_init (p : Parallel) : Parallel :=
  let p := add_child ComputePathToPoseActionRateLoop "None ?goal => ?path" p in
  let p := add_child FollowPathAction "?path" p in
  add_child CreateFollowPathFeedback "?path => ?feedback" p.

(** ApproachPoseThroughPoses.__init__ *)
Definition ApproachPoseThroughPoses_init : Parallel := ParallelNode_init 1 "?goals => ?feedback".

(** ApproachPoseThroughPoses.on_init *)
Definition ApproachPoseThroughPoses_on_init (p : Parallel) : Parallel :=
  let p := add_child ComputePathThroughPosesActionRateLoop "None ?goals => ?path" p in
  let p := add_child FollowPathAction "?path" p in
  add_child CreateFollowPathFeedback "?path => ?feedback" p.

(** Modelled from the spec: the parameter string of a node, 'inputs => outputs'
    with names separated by blanks (section 3, Blackboard Binding). *)
Fixpoint tokens (cs cur : list ascii) : list string :=
  match cs with
  | [] => match cur with [] => [] | _ => [string_of_list_ascii (rev cur)] end
  | c :: cs' =>
      if Ascii.eqb c " " then
        match cur with
        | [] => tokens cs' []
        | _ => string_of_list_ascii (rev cur) :: tokens cs' []
        end
      else tokens cs' (c :: cur)
  end.

Fixpoint before_arrow (ts : list string) : list string :=
  match ts with
  | [] => []
  | t :: ts' => if String.eqb t "=>" then [] else t :: before_arrow ts'
  end.

Fixpoint after_arrow (ts : list string) : list string :=
  match ts with
  | [] => []
  | t :: ts' => if String.eqb t "=>" then ts' else after_arrow ts'
  end.

Definition param_inputs (params : string) : list string :=
  before_arrow (tokens (list_ascii_of_string params) []).

Definition param_outputs (params : string) : list string :=
  after_arrow (tokens (list_ascii_of_string params) []).

(** Modelled from the spec: the status of a parallel node from the statuses of
    its children (section 4.6): SUCCESS once as many children as the threshold
    are in SUCCESS; a failed child does not fail the node. *)
Definition parallel_status (success_threshold : Z) (children : list NodeStatus) : NodeStatus :=
  if (success_threshold <=? Z.of_nat (length (filter (fun s => s = SUCCESS) children)))%Z
  then SUCCESS else RUNNING.

(** ** Runs of FollowPathAction *)

(** One tick of the follower with the value its ?path input has at that
    tick: the input is bound, on_tick runs, and the goal message it leaves
    (None when no request is to be sent) is handed to the action client. *)
Definition follow_tick (input : option Path) (f : Follower) : option FollowGoal * Follower :=
  let f := mkFollower (fo_node f) input (fo_current_path f) (fo_goal_msg f) in
  let f := FollowPathAction_on_tick f in
  (fo_goal_msg f, f).

(** The goal messages of a run of ticks, in order, and the node after it. *)
Fixpoint follow_run (inputs : list (option Path)) (f : Follower) : list FollowGoal * Follower :=
  match inputs with
  | [] => ([], f)
  | input :: rest =>
      let (g, f1) := follow_tick input f in
      let (gs, f2) := follow_run rest f1 in
      (match g with Some g => g :: gs | None => gs end, f2)
  end.

(** The paths of [inputs] that differ from the path before them, None
    skipped; [last] is the path before the first. *)
Fixpoint changed_paths (last : option Path) (inputs : list (option Path)) : list Path :=
  match inputs with
  | [] => []
  | None :: rest => changed_paths last rest
  | Some p :: rest =>
      if decide (last = Some p) then changed_paths last rest
      else p :: changed_paths (Some p) rest
  end.

(** The last path of the run that is not None, or [last]. *)
Definition last_path (last : option Path) (inputs : list (option Path)) : option Path :=
  fold_left (fun l i => match i with Some p => Some p | None => l end) inputs last.

(** ** GetPoseWithCovFromPose *)

(** geometry_msgs.msg.PoseWithCovarianceStamped: header, pose and the 6x6
    covariance in row-major order (36 values). *)
Record PoseWithCovarianceStamped : Type := mkPoseWithCov {
  pwc_header : string;
  pwc_pose : Z * Z;
  pwc_covariance : list Z
}.

(** PoseWithCovarianceStamped(): the default message. *)
Definition default_pose_with_cov : PoseWithCovarianceStamped :=
  mkPoseWithCov "" (0, 0) (replicate 36 0).

Record CovNode : Type := mkCovNode {
  cn_node : TreeNode;
  cn_pose : option PoseStamped;                        (* ?pose *)
  cn_var_x : Z;                                        (* ?var_x *)
  cn_var_y : Z;                                        (* ?var_y *)
  cn_var_yaw : Z;                                      (* ?var_yaw *)
  cn_pose_with_cov : option PoseWithCovarianceStamped  (* ?pose_with_cov *)
}.

Definition cn_with_out (m : PoseWithCovarianceStamped) (n : CovNode) : CovNode :=
  mkCovNode (cn_node n) (cn_pose n) (cn_var_x n) (cn_var_y n) (cn_var_yaw n) (Some m).

(** GetPoseWithCovFromPose.on_init.  The attribute access self._pose.header
    on a ?pose that is None raises AttributeError, after the default message
    has been stored. *)
Definition GetPoseWithCovFromPose_on_init (n : CovNode) : Result unit * CovNode :=
  let m := default_pose_with_cov in
  let n := cn_with_out m n in
  match cn_pose n with
  | None => (Raise AttributeError, n)
  | Some pose =>
      let m := mkPoseWithCov (frame_id pose) (pwc_pose m) (pwc_covariance m) in
      let m := mkPoseWithCov (pwc_header m) (pos_x pose, pos_y pose) (pwc_covariance m) in
      let m := mkPoseWithCov (pwc_header m) (pwc_pose m) (<[0%nat := cn_var_x n]> (pwc_covariance m)) in
      let m := mkPoseWithCov (pwc_header m) (pwc_pose m) (<[7%nat := cn_var_y n]> (pwc_covariance m)) in
      let m := mkPoseWithCov (pwc_header m) (pwc_pose m) (<[35%nat := cn_var_yaw n]> (pwc_covariance m)) in
      let n := cn_with_out m n in
      (Return tt,
       mkCovNode (set_status SUCCESS (cn_node n)) (cn_pose n) (cn_var_x n) (cn_var_y n)
                 (cn_var_yaw n) (cn_pose_with_cov n))
  end.

(** Entry (i, j) of the 6x6 covariance matrix. *)
Definition cov_entry (m : PoseWithCovarianceStamped) (i j : nat) : option Z :=
  pwc_covariance m !! (6 * i + j)%nat.

(** ** CreateFollowPathFeedback *)

(** NavigateToPose.Feedback *)
Record Feedback : Type := mkFeedback {
  fb_current_pose : PoseStamped;
  fb_distance_remaining : Z;
  fb_navigation_time_sec : Z;
  fb_estimated_time_remaining_sec : Z;
  fb_number_of_recoveries : Z
}.

(** NavigateToPose.Feedback(): the default message. *)
Definition default_feedback : Feedback := mkFeedback (mkPose "" 0 0) 0 0 0 0.

Record FeedbackNode : Type := mkFeedbackNode {
  fn_node : TreeNode;
  fn_path : option Path;     (* ?path *)
  fn_feedback : Feedback;    (* ?feedback *)
  fn_start_time : Z          (* self._start_time, in microseconds *)
}.

Section FeedbackTick.

(** What the node takes from carebt_nav2_pyutil and the odometry smoother:
    the twist it reads, the remaining length of a path from a pose, and the
    travel time for a distance at a twist. *)
Context {Twist : Type}
        (calculate_remaining_path_length : Path -> PoseStamped -> Z)
        (calculate_travel_time : Twist -> Z -> Z).

(** CreateFollowPathFeedback.__init__ at time [now]. *)
Definition CreateFollowPathFeedback_init (now : Z) : FeedbackNode :=
  mkFeedbackNode new_tree_node None default_feedback now.

(** CreateFollowPathFeedback.on_tick; [current_pose] is what get_current_pose
    returns, [now] is datetime.now() in microseconds, [twist] is what the
    odometry smoother gives.  int() of the seconds since the start cuts the
    fraction off. *)
Definition CreateFollowPathFeedback_on_tick
    (current_pose : option PoseStamped) (now : Z) (twist : Twist) (n : FeedbackNode)
  : FeedbackNode :=
  let fb := fn_feedback n in
  let fb :=
    match current_pose with
    | Some pose => mkFeedback pose (fb_distance_remaining fb) (fb_navigation_time_sec fb)
                              (fb_estimated_time_remaining_sec fb) (fb_number_of_recoveries fb)
    | None => fb
    end in
  let fb :=
    match fn_path n, current_pose with
    | Some path, Some pose =>
        mkFeedback (fb_current_pose fb) (calculate_remaining_path_length path pose)
                   (fb_navigation_time_sec fb) (fb_estimated_time_remaining_sec fb)
                   (fb_number_of_recoveries fb)
    | _, _ => fb
    end in
  let delta := (now - fn_start_time n)%Z in
  let fb := mkFeedback (fb_current_pose fb) (fb_distance_remaining fb)
                       (Z.quot delta 1000000) (fb_estimated_time_remaining_sec fb)
                       (fb_number_of_recoveries fb) in
  let fb := mkFeedback (fb_current_pose fb) (fb_distance_remaining fb)
                       (fb_navigation_time_sec fb)
                       (calculate_travel_time twist (fb_distance_remaining fb))
                       (fb_number_of_recoveries fb) in
  let fb := mkFeedback (fb_current_pose fb) (fb_distance_remaining fb)
                       (fb_navigation_time_sec fb) (fb_estimated_time_remaining_sec fb) 0 in
  mkFeedbackNode (fn_node n) (fn_path n) fb (fn_start_time n).

(** A run of ticks, each with the ?path bound at that tick and what the
    environment gives it. *)
Definition feedback_tick (e : option Path * option PoseStamped * Z * Twist) (n : FeedbackNode)
  : FeedbackNode :=
  let '(path, pose, now, twist) := e in
  CreateFollowPathFeedback_on_tick pose now twist
    (mkFeedbackNode (fn_node n) path (fn_feedback n) (fn_start_time n)).

Definition feedback_run := run_events feedback_tick.

End FeedbackTick.

(** ** One full round of a poll worker: check, lookup, sleep *)
Definition poll_rounds {L} (lookups : list L) : list (PollEvent L) :=
  flat_map (fun l => [WorkerStep l; WorkerStep l; WorkerStep l]) lookups.

(** ** The worker of WaitForLocalizationTF with what its loop does not catch *)

(** What a lookup step of WaitForLocalizationTF.__worker can meet: one of the
    answers of [TfLookup], or an exception that the except clause of line 109
    does not catch (the comparison of lines 100-103 raising ValueError on the
    square root of a negative covariance, AttributeError on an ?initial_pose
    that is None).  Such an exception ends the thread where it is raised; no
    status is written. *)
Inductive TfAnswer : Type :=
| TfAnswered (l : TfLookup)
| TfUncaught (e : PyExn).



(** WaitForLocalizationTF.__worker, one step, the thread dying included. *)
Definition WaitForLocalizationTF_worker_step_or_die (a : TfAnswer) (s : Localizer * WorkerPc)
  : Localizer * WorkerPc :=
  match a with
  | TfAnswered l => WaitForLocalizationTF_worker_step l s
  | TfUncaught e =>
      match snd s with
      | AtLookup => (fst s, Exited)
      | _ => WaitForLocalizationTF_worker_step TfRaised s
      end
  end.

Definition Localizer_answers_run (answers : list TfAnswer) (s : Localizer * WorkerPc)
  : Localizer * WorkerPc :=
  run_events WaitForLocalizationTF_worker_step_or_die answers s.

(** ** Notions used in the statements about the nodes *)

(** The worker thread exists. *)
Definition started (pc : WorkerPc) : Prop := pc <> NotStarted.

(** The two rate loops of the file with the class of their child. *)
Inductive loop_child : NodeClass -> NodeClass -> Prop :=
| loop_to_pose : loop_child ComputePathToPoseActionRateLoop ComputePathToPoseAction
| loop_through_poses :
    loop_child ComputePathThroughPosesActionRateLoop ComputePathThroughPosesAction.

(** The one entry each rate loop registers. *)
Definition path_ok_entry (cls : NodeClass) : ContingencyHandler :=
  mkContingencyHandler cls [SUCCESS] ".*" handle_path_ok.

(** What holds of a rate loop between events while its child never fails. *)
Record loop_inv (cls : NodeClass) (w : RateLoop) : Prop := mkLoopInv {
  inv_handlers : rl_handlers w = [path_ok_entry cls];
  inv_child_class : rl_child_class w = Some cls;
  inv_status : status (rl_node w) = RUNNING;
  inv_child : forall c, rl_child w = Some c -> status (pl_node c) <> FAILURE
}.

End Nav.

(** * plugins/kb_tinydb.py *)
Module KbTiny.

(** TellAsk.Response *)
Record Response : Type := mkResponse { success : bool; result : string }.

(** The names class Kb defines.  The class has no base class. *)
Definition Kb_class_attributes : list string := ["__init__"; "query_callback"; "get_kb"].

(** The object a method of Kb runs on: the names that resolve on it (those of
    its class, which is Kb or a class derived from it, and its own); what
    becomes of a call self.get_logger().info(...) or .error(...) when the name
    get_logger resolves (None: the line is logged; Some e: the call raises e,
    as when the name is bound to something that cannot be called); and what
    its logger has been given. *)
Record KbObject : Type := mkKbObject {
  attributes : list string;
  logger_fault : option PyExn;
  logged : list string
}.

Definition has_attribute (name : string) (self : KbObject) : bool :=
  bool_decide (name ∈ attributes self).

Definition log_line (line : string) (self : KbObject) : KbObject :=
  mkKbObject (attributes self) (logger_fault self) (logged self ++ [line]).

(** self.get_logger().info(line), and .error(line): AttributeError when the
    name does not resolve, the fault of the logger when it has one. *)
Definition logger_call (line : string) (self : KbObject) : Result unit * KbObject :=
  if has_attribute "get_logger" self then
    match logger_fault self with
    | None => (Return tt, log_line line self)
    | Some e => (Raise e, self)
    end
  else (Raise AttributeError, self).

(** An instance of class Kb itself, as object.__new__ makes it. *)
Definition plain_Kb : KbObject := mkKbObject Kb_class_attributes None [].

(** What exec does with the statement text it is given.  The text runs in
    the scope of query_callback, with self and response in reach: it runs to
    its end or an exception of class [e] leaves it, and either way it leaves
    the two objects in some state ([response'] has the str of the query's
    value in its result when the text is the assignment alone).  A text that
    never ends, and exception classes outside [PyExn], are not covered. *)
Inductive ExecOutcome : Type :=
| Evaluated (self' : KbObject) (response' : Response)
| Raised (e : PyExn) (self' : KbObject) (response' : Response).

(** A part of Python's syntax that needs no evaluator: a text of at most 64
    printable ASCII characters without quote, '#' or backslash, hence without
    string literal and comment and too short to exhaust the parser, in which
    more brackets are opened than closed, does not compile; exec raises
    SyntaxError before it runs any of it. *)
Definition plain_char (c : ascii) : bool :=
  let n := nat_of_ascii c in
  (32 <=? n)%nat && (n <=? 126)%nat &&
  negb (n =? 34)%nat &&   (* double quote *)
  negb (n =? 35)%nat &&   (* # *)
  negb (n =? 39)%nat &&   (* single quote *)
  negb (n =? 92)%nat.     (* backslash *)

Definition is_open (c : ascii) : bool :=
  Ascii.eqb c "(" || Ascii.eqb c "[" || Ascii.eqb c "{".

Definition is_close (c : ascii) : bool :=
  Ascii.eqb c ")" || Ascii.eqb c "]" || Ascii.eqb c "}".

Definition unclosed_bracket (code : string) : bool :=
  let cs := list_ascii_of_string code in
  (length cs <=? 64)%nat &&
  forallb plain_char cs &&
  (length (filter (fun c => is_close c = true) cs) <? length (filter (fun c => is_open c = true) cs))%nat.

(** exec(code), run on the objects as they are: [dyn] stands for the Python
    evaluator on the texts the check above does not decide (it has the TinyDB
    object behind self._kb). *)
Definition py_exec (dyn : string -> KbObject -> Response -> ExecOutcome)
    (code : string) (self : KbObject) (response : Response) : ExecOutcome :=
  if unclosed_bracket code then Raised SyntaxError self response
  else dyn code self response.

(** Kb.__init__ *)
Definition Kb_init (self : KbObject) (kbfile : string) : Result unit * KbObject :=
  match logger_call ("create tinydb kb from file: " ++ kbfile) self with
  | (Return _, self) =>
      (Return tt, mkKbObject (attributes self ++ ["_kb"]) (logger_fault self) (logged self))
  | (Raise e, self) => (Raise e, self)
  end.

(** The except clause of query_callback: except (AttributeError, RuntimeError) *)
Definition caught (e : PyExn) : bool :=
  subclass_of e AttributeError || subclass_of e RuntimeError.

(** The try block of query_callback: exec, response.success = True, the log
    line with the result.  It ends normally or with an exception, and leaves
    the two objects. *)
Definition query_try (dyn : string -> KbObject -> Response -> ExecOutcome)
    (self : KbObject) (request : string) (response : Response)
  : Result unit * KbObject * Response :=
  match py_exec dyn ("response.result = str(self._kb." ++ request ++ ")") self response with
  | Evaluated self response =>
      let response := mkResponse true (result response) in
      match logger_call ("result: " ++ result response) self with
      | (Return _, self) => (Return tt, self, response)
      | (Raise e, self) => (Raise e, self, response)
      end
  | Raised e self response => (Raise e, self, response)
  end.

(** Kb.query_callback *)
Definition query_callback (dyn : string -> KbObject -> Response -> ExecOutcome)
    (self : KbObject) (request : string) (response : Response) : Result Response * KbObject :=
  match logger_call ("request: " ++ request) self with
  | (Raise e, self) => (Raise e, self)
  | (Return _, self) =>
      match query_try dyn self request response with
      | (Return _, self, response) => (Return response, self)
      | (Raise e, self, response) =>
          if caught e then
            match logger_call ("an error occured: " ++ class_repr e) self with
            | (Return _, self) =>
                let response := mkResponse false (result response) in
                let response := mkResponse (success response) (class_repr e) in
                (Return response, self)
            | (Raise e', self) => (Raise e', self)
            end
          else (Raise e, self)
      end
  end.

(** An object of a class derived from Kb that has a logger, as a ROS node
    class gives it. *)
Definition node_Kb : KbObject :=
  mkKbObject (Kb_class_attributes ++ ["get_logger"; "_kb"])%list None [].

(** An evaluator for the examples: the store is empty and every query is
    all(), whose str is put in the result; the objects are otherwise left. *)
Definition empty_db (code : string) (self : KbObject) (response : Response) : ExecOutcome :=
  Evaluated self (mkResponse (success response) "[]").

(** An evaluator for the examples: the text, besides its query, rebinds
    self.get_logger to None, so that calling it raises TypeError. *)
Definition unbinds_logger (code : string) (self : KbObject) (response : Response)
  : ExecOutcome :=
  Evaluated (mkKbObject (attributes self) (Some TypeError) (logged self))
            (mkResponse (success response) "1").

Definition fresh_response : Response := mkResponse false "".

End KbTiny.

(** * simple_kb.py *)
Module SimpleKb.

Section Store.

(** The values of an entry's keys, with Python's == on them. *)
Context {Value : Type} (py_eq : Value -> Value -> bool).

Local Abbreviation Entry := (gmap string Value).

(** Entries are dict objects: the store maps a uuid to a reference, the heap
    maps a reference to the dict's contents, and two uuids, or a uuid and a
    dict of the caller, may share one object.  The files hold what json.dump
    wrote: the store with the contents of its entries. *)
Record World : Type := mkWorld {
  heap : gmap nat Entry;
  files : gmap string (gmap string Entry)
}.

Record Kb : Type := mkKb {
  filename : string;           (* self.__filename *)
  sync_to_file : bool;         (* self.__sync_to_file *)
  kb_dict : gmap string nat    (* self.__kb_dict *)
}.

Definition kb_with_dict (d : gmap string nat) (kb : Kb) : Kb :=
  mkKb (filename kb) (sync_to_file kb) d.

(** The contents of the dict at a reference. *)
Definition entry_at (h : gmap nat Entry) (r : nat) : Entry := default ∅ (h !! r).

(** The names class SimpleKb defines (private ones as Python mangles them). *)
Definition SimpleKb_class_attributes : list string :=
  ["__init__"; "_SimpleKb__save"; "_SimpleKb__get_uuids"; "create"; "read"; "update";
   "delete"; "show"; "size_in_kb"; "count"; "save"].

(** The attributes __init__ sets on the instance. *)
Definition SimpleKb_instance_attributes : list string :=
  ["_SimpleKb__filename"; "_SimpleKb__sync_to_file"; "_SimpleKb__kb_dict"].

(** self.<name>: the attribute resolves or AttributeError is raised. *)
Definition getattr (name : string) : Result unit :=
  if bool_decide (name ∈ (SimpleKb_instance_attributes ++ SimpleKb_class_attributes)%list)
  then Return tt else Raise AttributeError.

(** SimpleKb.__save, when open and json.dump succeed: the file holds the
    store.  The write that fails is in [SimpleKbDisk.__save]; what the methods
    below do to the store and to the dicts is done before the write and is
    the same there. *)
Definition __save (sync : bool) (kb : Kb) (w : World) : World :=
  if sync
  then mkWorld (heap w) (<[filename kb := entry_at (heap w) <$> kb_dict kb]> (files w))
  else w.

(** The dict comprehension of __get_uuids:
    {k: e[k] for k in filter.keys() if k in e and filter[k] == e[k]} *)
Definition match_dict (flt e : Entry) : Entry :=
  map_imap (fun k fv =>
              match e !! k with
              | Some ev => if py_eq fv ev then Some ev else None
              | None => None
              end) flt.

(** SimpleKb.__get_uuids *)
Definition __get_uuids (flt : Entry) (kb : Kb) (w : World) : list string :=
  (filter (fun '(uuid, r) => size flt = size (match_dict flt (entry_at (heap w) r)))
          (map_to_list (kb_dict kb))).*1.

(** self.__kb_dict[uuid][key] = update[key], with the dict of the entry at
    [r] and the dict update at [upd]. *)
Definition set_key (upd r : nat) (h : gmap nat Entry) (key : string) : gmap nat Entry :=
  match entry_at h upd !! key with
  | Some v => <[r := <[key := v]> (entry_at h r)]> h
  | None => h
  end.

(** for key in update: ... *)
Definition update_entry (upd : nat) (h : gmap nat Entry) (r : nat) : gmap nat Entry :=
  foldl (set_key upd r) h (map_to_list (entry_at h upd)).*1.

(** for uuid in uuids: ... *)
Definition update_all (upd : nat) (d : gmap string nat) (h : gmap nat Entry)
    (uuids : list string) : gmap nat Entry :=
  foldl (fun h uuid =>
           match d !! uuid with
           | Some r => update_entry upd h r
           | None => h
           end) h uuids.

(** SimpleKb.create; [new_uuid] is str(get_uuid()), [entry] the reference of
    the caller's dict. *)
Definition create (new_uuid : string) (entry : nat) (kb : Kb) (w : World) : Kb * World :=
  let kb := kb_with_dict (<[new_uuid := entry]> (kb_dict kb)) kb in
  (kb, __save (sync_to_file kb) kb w).

(** SimpleKb.read: the entries (their references) that match. *)
Definition read (flt : Entry) (kb : Kb) (w : World) : list nat :=
  omap (fun uuid => kb_dict kb !! uuid) (__get_uuids flt kb w).

(** SimpleKb.update; [new_uuid] is str(get_uuid()), used when nothing
    matches; [upd] is the reference of the caller's dict update. *)
Definition update (new_uuid : string) (flt : Entry) (upd : nat) (kb : Kb) (w : World)
  : Kb * World :=
  let uuids := __get_uuids flt kb w in
  let '(kb, w) :=
    if (0 <? length uuids)%nat
    then (kb, mkWorld (update_all upd (kb_dict kb) (heap w) uuids) (files w))
    else (kb_with_dict (<[new_uuid := upd]> (kb_dict kb)) kb, w) in
  (kb, __save (sync_to_file kb) kb w).

(** The parameters __get_uuids declares after self. *)
Definition __get_uuids_params : list string := ["filter"].

(** SimpleKb.delete: it calls self.__get_uuids(keys, entry). *)
Definition delete (keys entry : Entry) (kb : Kb) (w : World) : Result unit * (Kb * World) :=
  match bind_args __get_uuids_params [keys; entry] with
  | Raise e => (Raise e, (kb, w))
  | Return bound =>
      let flt := default ∅ (snd <$> head bound) in
      let uuids := __get_uuids flt kb w in
      let kb := kb_with_dict (foldl (fun d uuid => base.delete uuid d) (kb_dict kb) uuids) kb in
      (Return tt, (kb, __save (sync_to_file kb) kb w))
  end.

(** SimpleKb.count *)
Definition count (kb : Kb) : nat := size (kb_dict kb).

(** SimpleKb.save, when open and json.dump succeed (see [SimpleKbDisk.save]
    for the write that fails). *)
Definition save (kb : Kb) (w : World) : Result unit * (Kb * World) :=
  let w := __save true kb w in
  match getattr "get_logger" with
  | Raise e => (Raise e, (kb, w))
  | Return _ => (Return tt, (kb, w))
  end.

(** The public interface: one call with its arguments.  show and size_in_kb
    only read. *)
Inductive Call : Type :=
| CallCreate (new_uuid : string) (entry : nat)
| CallRead (flt : Entry)
| CallUpdate (new_uuid : string) (flt : Entry) (upd : nat)
| CallDelete (keys entry : Entry)
| CallShow
| CallSizeInKb
| CallCount
| CallSave.

(** The state a call leaves, whether it returns or raises. *)
Definition call (c : Call) (s : Kb * World) : Kb * World :=
  let (kb, w) := s in
  match c with
  | CallCreate new_uuid entry => create new_uuid entry kb w
  | CallRead _ => s
  | CallUpdate new_uuid flt upd => update new_uuid flt upd kb w
  | CallDelete keys entry => snd (delete keys entry kb w)
  | CallShow | CallSizeInKb | CallCount => s
  | CallSave => snd (save kb w)
  end.

Definition calls (cs : list Call) (s : Kb * World) : Kb * World :=
  fold_left (fun s c => call c s) cs s.

(** An entry matches a filter: every key of the filter is in the entry with
    an equal value. *)
Definition matches (flt e : Entry) : Prop :=
  forall k fv, flt !! k = Some fv -> exists ev, e !! k = Some ev /\ py_eq fv ev = true.

(** json.load makes a new dict object for every entry of the file: each is
    put at a reference that is not in use. *)
Definition load_entries (content : list (string * Entry)) (h : gmap nat Entry)
  : gmap string nat * gmap nat Entry :=
  foldr (fun '(uuid, e) '(d, h) =>
           let r := fresh (dom h) in (<[uuid := r]> d, <[r := e]> h))
        (∅, h) content.

(** SimpleKb.__init__, on a file that is absent or holds a mapping.  A file
    that cannot be opened (IOError) leaves the store empty, with a line
    printed; a file that holds a mapping is read as that mapping.  What
    json.dump makes of the values, and a file that is not JSON, are in
    [SimpleKbDisk]. *)
Definition __init__ (filename : string) (sync_to_file : bool) (w : World) : Kb * World :=
  match files w !! filename with
  | Some content =>
      let (d, h) := load_entries (map_to_list content) (heap w) in
      (mkKb filename sync_to_file d, mkWorld h (files w))
  | None => (mkKb filename sync_to_file ∅, w)
  end.

(** What json.dump would write for the store: every uuid with the contents
    of its entry. *)
Definition snapshot (kb : Kb) (w : World) : gmap string Entry :=
  entry_at (heap w) <$> kb_dict kb.

(** No two uuids of the store are bound to one dict object. *)
Definition unshared (kb : Kb) : Prop :=
  forall u1 u2 r, kb_dict kb !! u1 = Some r -> kb_dict kb !! u2 = Some r -> u1 = u2.

(** The effect of the inner loop on one dict: the keys in [ks] get the
    values they have in [u]. *)
Definition patch (u : gmap string Value) (ks : list string) (e : gmap string Value)
  : gmap string Value :=
  foldl (fun e k => match u !! k with Some v => <[k := v]> e | None => e end) e ks.

End Store.

(** Scalar JSON values, with == as Python has it on them (True == 1,
    False == 0), for the examples. *)
Inductive JValue : Type :=
| JNull
| JBool (b : bool)
| JInt (n : Z)
| JStr (s : string).

Definition int_of_bool (b : bool) : Z := if b then 1 else 0.

Definition jvalue_eq (a b : JValue) : bool :=
  match a, b with
  | JNull, JNull => true
  | JBool x, JBool y => Bool.eqb x y
  | JBool x, JInt n | JInt n, JBool x => (int_of_bool x =? n)%Z
  | JInt n, JInt m => (n =? m)%Z
  | JStr s, JStr t => String.eqb s t
  | _, _ => false
  end.

(** A store for the examples: one entry, and the caller's dict update. *)
Definition robot_entry : gmap string JValue :=
  <["x" := JInt 1]> {["name" := JStr "robot"]}.

Definition example_heap : gmap nat (gmap string JValue) :=
  <[2%nat := {["x" := JInt 5]}]> {[1%nat := robot_entry]}.

Definition example_kb : Kb := mkKb "kb.json" true {["u1" := 1%nat]}.

Definition example_world : World := mkWorld example_heap ∅.

Definition robot_filter : gmap string JValue := {["name" := JStr "robot"]}.

Definition arm_filter : gmap string JValue := {["name" := JStr "arm"]}.

End SimpleKb.

(** * simple_kb.py with the file system and json as they are *)
Module SimpleKbDisk.
Import SimpleKb.

Section Disk.

(** [json_value v]: what json.dump followed by json.load makes of a value of
    an entry: the value read back (a tuple comes back as a list), or the
    exception json.dump raises on it (TypeError on a set, ValueError on an
    integer too large to print).  [dump_order m]: the values of the entries
    of m in the order json.dump meets them, which is the order of insertion
    of the dicts and is not kept by the finite maps here.  Keys of entries
    are strings, as in [SimpleKb]. *)
Context {Value : Type} (py_eq : Value -> Value -> bool)
        (json_value : Value -> Result Value)
        (dump_order : gmap string (gmap string Value) -> list Value).

Local Abbreviation Entry := (gmap string Value).

(** What a file holds: the text of a mapping, given by the mapping that
    json.load reads from it, or a text that json.load rejects (an empty or a
    cut file). *)
Inductive FileContent : Type :=
| JsonText (m : gmap string Entry)
| BrokenText.

Record DiskWorld : Type := mkDiskWorld {
  dw_heap : gmap nat Entry;
  dw_files : gmap string FileContent
}.

(** What the file system does to one json.dump(..., open(name, 'w')): it lets
    it through, open raises (a missing directory, no permission: the file is
    not touched), or the write raises after the file was opened and emptied
    (a full disk). *)
Inductive Io : Type :=
| IoOk
| OpenFails (e : PyExn)
| WriteFails (e : PyExn).

(** The memory of a world, for the functions of [SimpleKb] that only read
    and write dicts. *)
Definition memory (dw : DiskWorld) : World := mkWorld (dw_heap dw) ∅.

Definition disk_snapshot (kb : Kb) (dw : DiskWorld) : gmap string Entry :=
  entry_at (dw_heap dw) <$> kb_dict kb.

(** json.dump on the store: the first value, in the order of writing, that
    cannot be written raises; otherwise the text holds every value as it
    reads back.  [store_values m] are the values of m, in no particular
    order. *)
Definition json_error (v : Value) : option PyExn :=
  match json_value v with Raise e => Some e | Return _ => None end.

Definition json_read_back (v : Value) : Value :=
  match json_value v with Return v' => v' | Raise _ => v end.

Definition store_values (m : gmap string Entry) : list Value :=
  (map_to_list m).*2 ≫= (fun e => (map_to_list e).*2).

Definition json_dump (m : gmap string Entry) : Result (gmap string Entry) :=
  match head (omap (M := list) json_error (dump_order m)) with
  | Some e => Raise e
  | None => Return ((fun e : Entry => json_read_back <$> e) <$> m)
  end.

Definition with_file (name : string) (c : FileContent) (dw : DiskWorld) : DiskWorld :=
  mkDiskWorld (dw_heap dw) (<[name := c]> (dw_files dw)).

(** SimpleKb.__save *)
Definition __save (io : Io) (sync : bool) (kb : Kb) (dw : DiskWorld) : Result unit * DiskWorld :=
  if sync then
    match io with
    | OpenFails e => (Raise e, dw)
    | WriteFails e => (Raise e, with_file (filename kb) BrokenText dw)
    | IoOk =>
        match json_dump (disk_snapshot kb dw) with
        | Return m => (Return tt, with_file (filename kb) (JsonText m) dw)
        | Raise e => (Raise e, with_file (filename kb) BrokenText dw)
        end
    end
  else (Return tt, dw).

(** SimpleKb.create *)
Definition create (new_uuid : string) (entry : nat) (io : Io) (kb : Kb) (dw : DiskWorld)
  : Result unit * (Kb * DiskWorld) :=
  let kb := kb_with_dict (<[new_uuid := entry]> (kb_dict kb)) kb in
  let (r, dw) := __save io (sync_to_file kb) kb dw in
  (r, (kb, dw)).

(** SimpleKb.update *)
Definition update (new_uuid : string) (flt : Entry) (upd : nat) (io : Io)
    (kb : Kb) (dw : DiskWorld) : Result unit * (Kb * DiskWorld) :=
  let uuids := __get_uuids py_eq flt kb (memory dw) in
  let '(kb, dw) :=
    if (0 <? length uuids)%nat
    then (kb, mkDiskWorld (update_all upd (kb_dict kb) (dw_heap dw) uuids) (dw_files dw))
    else (kb_with_dict (<[new_uuid := upd]> (kb_dict kb)) kb, dw) in
  let (r, dw) := __save io (sync_to_file kb) kb dw in
  (r, (kb, dw)).

(** SimpleKb.save *)
Definition save (io : Io) (kb : Kb) (dw : DiskWorld) : Result unit * (Kb * DiskWorld) :=
  match __save io true kb dw with
  | (Raise e, dw) => (Raise e, (kb, dw))
  | (Return _, dw) =>
      match getattr "get_logger" with
      | Raise e => (Raise e, (kb, dw))
      | Return _ => (Return tt, (kb, dw))
      end
  end.

(** SimpleKb.__init__.  IOError is caught and leaves the store empty; the
    json.JSONDecodeError of a text that is not JSON is a ValueError and is
    not caught. *)
Definition __init__ (filename : string) (sync_to_file : bool) (dw : DiskWorld)
  : Result Kb * DiskWorld :=
  match dw_files dw !! filename with
  | None => (Return (mkKb filename sync_to_file ∅), dw)
  | Some BrokenText => (Raise ValueError, dw)
  | Some (JsonText m) =>
      let (d, h) := load_entries (map_to_list m) (dw_heap dw) in
      (Return (mkKb filename sync_to_file d), mkDiskWorld h (dw_files dw))
  end.

End Disk.

(** json on the scalar values of the examples: each is written and read back
    as it is. *)
Definition jvalue_json (v : JValue) : Result JValue := Return v.

Definition example_disk : DiskWorld := mkDiskWorld example_heap ∅.

(** An order of writing for the examples. *)
Definition jvalue_order (m : gmap string (gmap string JValue)) : list JValue :=
  store_values m.

End SimpleKbDisk.

(** * Properties *)

Section NavigationCallbacks.
Import Nav.

(** C1 -- result callbacks of the planner and path-follower nodes.  With
    status SUCCEEDED the node's status becomes SUCCESS and, for the two
    planners, the ?path output becomes the result's path.  With status ABORTED
    the planners return the node exactly as it was, and the follower changes
    nothing but its log: status, contingency message and path stay, so a
    SUSPENDED node stays SUSPENDED. *)
Theorem result_callback_succeeded_aborted :
  (forall (path : Path) (p : Planner),
      let p' := ComputePathToPoseAction_result_callback (mkPlanResult STATUS_SUCCEEDED path) p in
      status (pl_node p') = SUCCESS /\ pl_path p' = Some path) /\
  (forall (path : Path) (p : Planner),
      let p' := ComputePathThroughPosesAction_result_callback (mkPlanResult STATUS_SUCCEEDED path) p in
      status (pl_node p') = SUCCESS /\ pl_path p' = Some path) /\
  (forall (uuid : string) (f : Follower),
      status (fo_node (FollowPathAction_result_callback STATUS_SUCCEEDED uuid f)) = SUCCESS) /\
  (forall (path : Path) (p : Planner),
      ComputePathToPoseAction_result_callback (mkPlanResult STATUS_ABORTED path) p = p) /\
  (forall (path : Path) (p : Planner),
      ComputePathThroughPosesAction_result_callback (mkPlanResult STATUS_ABORTED path) p = p) /\
  (forall (uuid : string) (f : Follower),
      let f' := FollowPathAction_result_callback STATUS_ABORTED uuid f in
      status (fo_node f') = status (fo_node f) /\
      contingency_message (fo_node f') = contingency_message (fo_node f) /\
      fo_path f' = fo_path f /\
      fo_current_path f' = fo_current_path f /\
      fo_goal_msg f' = fo_goal_msg f).
Proof.
  repeat split; reflexivity.
Qed.

End NavigationCallbacks.

Section PathFollowing.
Import Nav.

Lemma path_differs_spec (current : option Path) (path : Path) :
  path_differs current path = true <-> current <> Some path.
Proof.
  destruct current as [c|]; simpl.
  - rewrite bool_decide_eq_true. split; intros H; congruence.
  - split; [discriminate | reflexivity].
Qed.

(** C5 -- FollowPathAction.on_tick.  A goal message is produced exactly when
    the ?path input is not None and differs from the path sent last.  When the
    path is None or equals the path sent last, the goal message is None and the
    path sent last stays.  A goal message that is produced carries the current
    path, and the path sent last becomes the current path. *)
Theorem follow_path_on_tick_goal (f : Follower) :
  let f' := FollowPathAction_on_tick f in
  (is_Some (fo_goal_msg f') <->
     exists path, fo_path f = Some path /\ fo_current_path f <> Some path) /\
  (fo_path f = None \/ fo_current_path f = fo_path f ->
     fo_goal_msg f' = None /\ fo_current_path f' = fo_current_path f) /\
  (forall g, fo_goal_msg f' = Some g ->
     fo_path f = Some (fg_path g) /\ fo_current_path f' = fo_path f) /\
  fo_path f' = fo_path f /\ fo_node f' = fo_node f.
Proof.
  unfold FollowPathAction_on_tick. simpl.
  destruct (fo_path f) as [path|] eqn:Hp; simpl.
  - destruct (path_differs (fo_current_path f) path) eqn:Hd; simpl.
    + apply path_differs_spec in Hd.
      split; [|split; [|split; [|split]]]; try reflexivity.
      * split; [intros _; exists path; split; [reflexivity | exact Hd] | intros _; eauto].
      * intros [Hn|Hn]; congruence.
      * intros g Hg. inversion Hg; subst. split; reflexivity.
    + assert (Hn : ~ fo_current_path f <> Some path).
      { intros Hne. apply path_differs_spec in Hne. congruence. }
      split; [|split; [|split; [|split]]]; try reflexivity.
      * split; [intros [g Hg]; discriminate |].
        intros (q & Hq & Hne). inversion Hq; subst. contradiction.
      * intros _. split; reflexivity.
      * intros g Hg. discriminate.
  - split; [|split; [|split; [|split]]]; try reflexivity.
    + split; [intros [g Hg]; discriminate | intros (q & Hq & _); discriminate].
    + intros _. split; reflexivity.
    + intros g Hg. discriminate.
Qed.

(** A tick with a new path, then a tick with the same path: one request. *)
Example follow_path_two_ticks :
  let p1 : Path := [mkPose "map" 1 2] in
  let f0 := mkFollower new_tree_node (Some p1) None None in
  let f1 := FollowPathAction_on_tick f0 in
  let f2 := FollowPathAction_on_tick f1 in
  fo_goal_msg f1 = Some (mkFollowGoal p1) /\ fo_current_path f1 = Some p1 /\
  fo_goal_msg f2 = None /\ fo_current_path f2 = Some p1.
Proof. repeat split. Qed.

(** A node whose path is the one it sent last: no goal message. *)
Lemma follow_path_on_tick_goal_witness :
  let p1 : Path := [mkPose "map" 1 2] in
  let f := mkFollower new_tree_node (Some p1) (Some p1) (Some (mkFollowGoal p1)) in
  fo_goal_msg (FollowPathAction_on_tick f) = None /\
  fo_current_path (FollowPathAction_on_tick f) = fo_current_path f.
Proof.
  exact (proj1 (proj2 (follow_path_on_tick_goal
                         (mkFollower new_tree_node (Some [mkPose "map" 1 2])
                                     (Some [mkPose "map" 1 2])
                                     (Some (mkFollowGoal [mkPose "map" 1 2])))))
               (or_intror eq_refl)).
Defined.

End PathFollowing.

Section PollWorkers.
Import Nav.

(** *** Worker steps that do not complete leave the node alone *)

Lemma Localizer_idle_step env s :
  tf_completes env = false ->
  fst (WaitForLocalizationTF_worker_step env s) = fst s.
Proof.
  destruct s as [l pc]; intros He.
  destruct pc; simpl; try reflexivity.
  - destruct (negb (lo_thread_running l)); reflexivity.
  - destruct env as [|[|]]; simpl in *; try reflexivity; discriminate.
Qed.

Lemma Localizer_idle_steps envs s :
  forallb (fun e => negb (tf_completes e)) envs = true ->
  fst (Localizer_run (worker_steps envs) s) = fst s.
Proof.
  revert s. induction envs as [|e envs IH]; intros s H; simpl in *; [reflexivity|].
  apply andb_true_iff in H as [He H]. apply negb_true_iff in He.
  unfold Localizer_run, run_events in *. simpl.
  rewrite IH by assumption. apply Localizer_idle_step; assumption.
Qed.

Lemma PoseGetter_idle_step env s :
  env = None ->
  pg_node (fst (GetCurrentPose_worker_step env s)) = pg_node (fst s) /\
  pg_thread_running (fst (GetCurrentPose_worker_step env s)) = pg_thread_running (fst s).
Proof.
  destruct s as [g pc]; intros ->.
  destruct pc; simpl; try (split; reflexivity).
  destruct (negb (pg_thread_running g)); split; reflexivity.
Qed.

Lemma PoseGetter_idle_steps envs s :
  forallb (fun e : option PoseStamped => bool_decide (e = None)) envs = true ->
  pg_node (fst (PoseGetter_run (worker_steps envs) s)) = pg_node (fst s) /\
  pg_thread_running (fst (PoseGetter_run (worker_steps envs) s)) = pg_thread_running (fst s).
Proof.
  revert s. induction envs as [|e envs IH]; intros s H; simpl in *; [split; reflexivity|].
  apply andb_true_iff in H as [He H]. apply bool_decide_eq_true in He.
  unfold PoseGetter_run, run_events in *. simpl.
  destruct (IH (GetCurrentPose_worker_step e s) H) as [-> ->].
  apply PoseGetter_idle_step; assumption.
Qed.

(** *** The program counter of a started worker *)


Lemma Localizer_step_started env s :
  started (snd s) -> started (snd (WaitForLocalizationTF_worker_step env s)).
Proof.
  destruct s as [l pc]; unfold started; simpl.
  destruct pc; simpl; try congruence.
  - destruct (lo_thread_running l); simpl; congruence.
  - destruct env as [|[|]]; simpl; congruence.
Qed.

Lemma Localizer_steps_started envs s :
  started (snd s) -> started (snd (Localizer_run (worker_steps envs) s)).
Proof.
  revert s. induction envs as [|e envs IH]; intros s H; [exact H|].
  unfold Localizer_run, run_events in *. simpl. apply IH.
  apply Localizer_step_started; assumption.
Qed.

Lemma PoseGetter_step_started env s :
  started (snd s) -> started (snd (GetCurrentPose_worker_step env s)).
Proof.
  destruct s as [g pc]; unfold started; simpl.
  destruct pc; simpl; try congruence.
  - destruct (pg_thread_running g); simpl; congruence.
  - destruct env; simpl; congruence.
Qed.

Lemma PoseGetter_steps_started envs s :
  started (snd s) -> started (snd (PoseGetter_run (worker_steps envs) s)).
Proof.
  revert s. induction envs as [|e envs IH]; intros s H; [exact H|].
  unfold PoseGetter_run, run_events in *. simpl. apply IH.
  apply PoseGetter_step_started; assumption.
Qed.

(** *** With the flag cleared, a worker that does not complete exits within
    three steps: lookup, sleep, check. *)

Lemma Localizer_exited_stays envs l :
  Localizer_run (worker_steps envs) (l, Exited) = (l, Exited).
Proof. induction envs; [reflexivity | assumption]. Qed.

Lemma PoseGetter_exited_stays envs g :
  PoseGetter_run (worker_steps envs) (g, Exited) = (g, Exited).
Proof. induction envs; [reflexivity | assumption]. Qed.

Lemma Localizer_stops envs l pc :
  lo_thread_running l = false -> started pc ->
  forallb (fun e => negb (tf_completes e)) envs = true ->
  (3 <= length envs)%nat ->
  snd (Localizer_run (worker_steps envs) (l, pc)) = Exited.
Proof.
  intros Hf Hs He Hlen.
  destruct envs as [|e1 [|e2 [|e3 envs]]]; simpl in Hlen; try lia.
  simpl in He.
  apply andb_true_iff in He as [H1 He]. apply andb_true_iff in He as [H2 He].
  apply andb_true_iff in He as [H3 He].
  apply negb_true_iff in H1, H2, H3.
  unfold Localizer_run, run_events, worker_steps. simpl.
  fold (worker_steps envs). fold (run_events Localizer_event (worker_steps envs)).
  fold (Localizer_run (worker_steps envs)).
  destruct pc; simpl; try (exfalso; apply Hs; reflexivity);
    rewrite ?Hf; simpl;
    repeat match goal with
           | e : TfLookup |- _ => destruct e as [|[|]]; simpl in *; try discriminate
           end;
    rewrite ?Hf; simpl; rewrite ?Localizer_exited_stays; try reflexivity.
Qed.

Lemma PoseGetter_stops envs g pc :
  pg_thread_running g = false -> started pc ->
  forallb (fun e : option PoseStamped => bool_decide (e = None)) envs = true ->
  (3 <= length envs)%nat ->
  snd (PoseGetter_run (worker_steps envs) (g, pc)) = Exited.
Proof.
  intros Hf Hs He Hlen.
  destruct envs as [|e1 [|e2 [|e3 envs]]]; simpl in Hlen; try lia.
  simpl in He.
  apply andb_true_iff in He as [H1 He]. apply andb_true_iff in He as [H2 He].
  apply andb_true_iff in He as [H3 He].
  apply bool_decide_eq_true in H1, H2, H3. subst e1 e2 e3.
  unfold PoseGetter_run, run_events, worker_steps. simpl.
  fold (worker_steps envs). fold (run_events PoseGetter_event (worker_steps envs)).
  fold (PoseGetter_run (worker_steps envs)).
  destruct pc; simpl; try (exfalso; apply Hs; reflexivity);
    rewrite ?Hf; simpl; rewrite ?Hf; simpl;
    rewrite ?PoseGetter_exited_stays; try reflexivity.
Qed.

Lemma run_events_app {E S} (step : E -> S -> S) (es1 es2 : list E) (s : S) :
  run_events step (es1 ++ es2) s = run_events step es2 (run_events step es1 s).
Proof. unfold run_events. apply fold_left_app. Qed.

Lemma Localizer_timeout_event l pc :
  Localizer_event TimeoutFires (l, pc) =
  (fire_timeout (fun l => status (lo_node l)) WaitForLocalizationTF_on_timeout l, pc).
Proof. reflexivity. Qed.

Lemma PoseGetter_timeout_event g pc :
  PoseGetter_event TimeoutFires (g, pc) =
  (fire_timeout (fun g => status (pg_node g)) GetCurrentPose_on_timeout g, pc).
Proof. reflexivity. Qed.

(** C2 -- timeout of the poll-worker nodes.  on_timeout clears the worker's
    running flag, sets the status to FAILURE and sets the contingency message
    ('NOT_LOCALIZED', 'CURRENT_POSE_NOT_AVAILABLE').  Hence a node that is
    activated, whose worker's lookups never complete before or after, and
    whose timeout fires, is in FAILURE with its message set and its flag
    cleared, and its worker has left the loop after three more steps. *)
Theorem poll_worker_timeout_failure :
  (forall l : Localizer,
      let l' := WaitForLocalizationTF_on_timeout l in
      lo_thread_running l' = false /\ status (lo_node l') = FAILURE /\
      contingency_message (lo_node l') = "NOT_LOCALIZED") /\
  (forall g : PoseGetter,
      let g' := GetCurrentPose_on_timeout g in
      pg_thread_running g' = false /\ status (pg_node g') = FAILURE /\
      contingency_message (pg_node g') = "CURRENT_POSE_NOT_AVAILABLE") /\
  (forall (l : Localizer) (before after : list TfLookup),
      forallb (fun e => negb (tf_completes e)) before = true ->
      forallb (fun e => negb (tf_completes e)) after = true ->
      let s := Localizer_run (worker_steps before ++ TimeoutFires :: worker_steps after)
                             (WaitForLocalizationTF_on_init l) in
      lo_thread_running (fst s) = false /\ status (lo_node (fst s)) = FAILURE /\
      contingency_message (lo_node (fst s)) = "NOT_LOCALIZED" /\
      ((3 <= length after)%nat -> snd s = Exited)) /\
  (forall (g : PoseGetter) (before after : list (option PoseStamped)),
      forallb (fun e : option PoseStamped => bool_decide (e = None)) before = true ->
      forallb (fun e : option PoseStamped => bool_decide (e = None)) after = true ->
      let s := PoseGetter_run (worker_steps before ++ TimeoutFires :: worker_steps after)
                              (GetCurrentPose_on_init g) in
      pg_thread_running (fst s) = false /\ status (pg_node (fst s)) = FAILURE /\
      contingency_message (pg_node (fst s)) = "CURRENT_POSE_NOT_AVAILABLE" /\
      ((3 <= length after)%nat -> snd s = Exited)).
Proof.
  split; [intros l; repeat split|].
  split; [intros g; repeat split|].
  split.
  - intros l before after Hb Ha s. subst s.
    unfold Localizer_run. rewrite run_events_app.
    fold (Localizer_run (worker_steps before)).
    pose proof (Localizer_idle_steps before (WaitForLocalizationTF_on_init l) Hb) as Hn.
    pose proof (Localizer_steps_started before (WaitForLocalizationTF_on_init l)) as Hs.
    destruct (Localizer_run (worker_steps before) (WaitForLocalizationTF_on_init l))
      as [l1 pc1] eqn:E1.
    simpl in Hn. subst l1.
    change (run_events Localizer_event (TimeoutFires :: worker_steps after) ?x)
      with (Localizer_run (worker_steps after) (Localizer_event TimeoutFires x)).
    rewrite Localizer_timeout_event.
    set (l2 := fire_timeout _ _ _).
    assert (Hl2 : l2 = WaitForLocalizationTF_on_timeout
                         (mkLocalizer (set_status SUSPENDED (lo_node l)) true))
      by reflexivity.
    pose proof (Localizer_idle_steps after (l2, pc1) Ha) as Hn2.
    cbn [fst] in Hn2. rewrite Hn2, Hl2.
    split; [reflexivity | split; [reflexivity | split; [reflexivity |]]].
    intros Hlen. rewrite <- Hl2. apply Localizer_stops; try assumption.
    + rewrite Hl2. reflexivity.
    + apply Hs. discriminate.
  - intros g before after Hb Ha s. subst s.
    unfold PoseGetter_run. rewrite run_events_app.
    fold (PoseGetter_run (worker_steps before)).
    pose proof (PoseGetter_idle_steps before (GetCurrentPose_on_init g) Hb) as [Hn Hf].
    pose proof (PoseGetter_steps_started before (GetCurrentPose_on_init g)) as Hs.
    destruct (PoseGetter_run (worker_steps before) (GetCurrentPose_on_init g))
      as [g1 pc1] eqn:E1.
    simpl in Hn, Hf.
    change (run_events PoseGetter_event (TimeoutFires :: worker_steps after) ?x)
      with (PoseGetter_run (worker_steps after) (PoseGetter_event TimeoutFires x)).
    rewrite PoseGetter_timeout_event.
    set (g2 := fire_timeout _ _ _).
    assert (Hg2 : g2 = GetCurrentPose_on_timeout g1).
    { subst g2. unfold fire_timeout. rewrite Hn. reflexivity. }
    pose proof (PoseGetter_idle_steps after (g2, pc1) Ha) as [Hn2 Hf2].
    cbn [fst] in Hn2, Hf2. rewrite Hn2, Hf2, Hg2.
    split; [reflexivity | split; [reflexivity | split; [reflexivity |]]].
    intros Hlen. rewrite <- Hg2. apply PoseGetter_stops; try assumption.
    + rewrite Hg2. reflexivity.
    + apply Hs. discriminate.
Qed.

(** A node activated with two failed lookups before the timeout and three
    worker steps after it. *)
Lemma poll_worker_timeout_failure_witness :
  let s := Localizer_run
             (worker_steps [TfRaised; TfFound false] ++
              TimeoutFires :: worker_steps [TfRaised; TfRaised; TfRaised])
             (WaitForLocalizationTF_on_init WaitForLocalizationTF_init) in
  lo_thread_running (fst s) = false /\ status (lo_node (fst s)) = FAILURE /\
  contingency_message (lo_node (fst s)) = "NOT_LOCALIZED" /\
  ((3 <= 3)%nat -> snd s = Exited).
Proof.
  exact (proj1 (proj2 (proj2 poll_worker_timeout_failure))
           WaitForLocalizationTF_init [TfRaised; TfFound false]
           [TfRaised; TfRaised; TfRaised] eq_refl eq_refl).
Defined.

(** *** The stop flag and the worker's status write *)

(** A worker past its check when the timeout fires: the lookup then succeeds
    and the worker writes SUCCESS over the FAILURE of the timeout, with the
    flag already cleared.  Both poll workers. *)
Lemma worker_success_after_timeout :
  (let s0 := WaitForLocalizationTF_on_init WaitForLocalizationTF_init in
   let s1 := Localizer_event (WorkerStep TfRaised) s0 in
   let s2 := Localizer_event TimeoutFires s1 in
   let s3 := Localizer_event (WorkerStep (TfFound true)) s2 in
   snd s1 = AtLookup /\
   lo_thread_running (fst s2) = false /\ status (lo_node (fst s2)) = FAILURE /\
   status (lo_node (fst s3)) = SUCCESS) /\
  (let s0 := GetCurrentPose_on_init GetCurrentPose_init in
   let s1 := PoseGetter_event (WorkerStep None) s0 in
   let s2 := PoseGetter_event TimeoutFires s1 in
   let s3 := PoseGetter_event (WorkerStep (Some (mkPose "map" 0 0))) s2 in
   snd s1 = AtLookup /\
   pg_thread_running (fst s2) = false /\ status (pg_node (fst s2)) = FAILURE /\
   status (pg_node (fst s3)) = SUCCESS).
Proof. repeat split. Qed.

Lemma Localizer_run_cons e envs s :
  Localizer_run (worker_steps (e :: envs)) s =
  Localizer_run (worker_steps envs) (WaitForLocalizationTF_worker_step e s).
Proof. reflexivity. Qed.

Lemma PoseGetter_run_cons e envs s :
  PoseGetter_run (worker_steps (e :: envs)) s =
  PoseGetter_run (worker_steps envs) (GetCurrentPose_worker_step e s).
Proof. reflexivity. Qed.

Lemma Localizer_flag_cleared_step env l pc :
  lo_thread_running l = false -> pc <> AtLookup ->
  fst (WaitForLocalizationTF_worker_step env (l, pc)) = l /\
  snd (WaitForLocalizationTF_worker_step env (l, pc)) <> AtLookup.
Proof.
  intros Hf Hpc. destruct pc; simpl; rewrite ?Hf; simpl; try (split; [reflexivity|discriminate]).
  contradiction.
Qed.

Lemma PoseGetter_flag_cleared_step env g pc :
  pg_thread_running g = false -> pc <> AtLookup ->
  fst (GetCurrentPose_worker_step env (g, pc)) = g /\
  snd (GetCurrentPose_worker_step env (g, pc)) <> AtLookup.
Proof.
  intros Hf Hpc. destruct pc; simpl; rewrite ?Hf; simpl; try (split; [reflexivity|discriminate]).
  contradiction.
Qed.

(** C3, as the code has it -- the worker reads the stop flag once per loop
    iteration, at the top of the loop.  A status write of the worker happens
    only in the step after a check that found the flag set.  A worker that is
    not between its check and its write when the flag is cleared (it is at the
    top of the loop, asleep, or gone) never writes anything afterwards,
    whatever its lookups would return. *)
Theorem worker_reads_flag_at_loop_top :
  (forall (l : Localizer) (pc : WorkerPc) (envs : list TfLookup),
      lo_thread_running l = false -> pc <> AtLookup ->
      fst (Localizer_run (worker_steps envs) (l, pc)) = l) /\
  (forall (g : PoseGetter) (pc : WorkerPc) (envs : list (option PoseStamped)),
      pg_thread_running g = false -> pc <> AtLookup ->
      fst (PoseGetter_run (worker_steps envs) (g, pc)) = g) /\
  (forall env (l : Localizer) (pc : WorkerPc),
      status (lo_node (fst (WaitForLocalizationTF_worker_step env (l, pc)))) <> status (lo_node l) ->
      pc = AtLookup) /\
  (forall env (g : PoseGetter) (pc : WorkerPc),
      status (pg_node (fst (GetCurrentPose_worker_step env (g, pc)))) <> status (pg_node g) ->
      pc = AtLookup) /\
  (forall env (l : Localizer),
      snd (WaitForLocalizationTF_worker_step env (l, AtCheck)) =
        if lo_thread_running l then AtLookup else Exited) /\
  (forall env (g : PoseGetter),
      snd (GetCurrentPose_worker_step env (g, AtCheck)) =
        if pg_thread_running g then AtLookup else Exited).
Proof.
  split; [|split; [|split; [|split; [|split]]]].
  - intros l pc envs Hf. revert pc.
    induction envs as [|e envs IH]; intros pc Hpc; [reflexivity|].
    rewrite Localizer_run_cons.
    destruct (Localizer_flag_cleared_step e l pc Hf Hpc) as [H1 H2].
    destruct (WaitForLocalizationTF_worker_step e (l, pc)) as [l' pc'].
    simpl in H1, H2. subst l'. apply IH; assumption.
  - intros g pc envs Hf. revert pc.
    induction envs as [|e envs IH]; intros pc Hpc; [reflexivity|].
    rewrite PoseGetter_run_cons.
    destruct (PoseGetter_flag_cleared_step e g pc Hf Hpc) as [H1 H2].
    destruct (GetCurrentPose_worker_step e (g, pc)) as [g' pc'].
    simpl in H1, H2. subst g'. apply IH; assumption.
  - intros env l pc. destruct pc; simpl; try congruence.
    destruct (negb (lo_thread_running l)); simpl; congruence.
  - intros env g pc. destruct pc; simpl; try congruence.
    destruct (negb (pg_thread_running g)); simpl; congruence.
  - intros env l. simpl. destruct (lo_thread_running l); reflexivity.
  - intros env g. simpl. destruct (pg_thread_running g); reflexivity.
Qed.

(** The timeout fires while the worker sleeps; the next lookups would all
    succeed, and the node stays as the timeout left it. *)
Lemma worker_reads_flag_at_loop_top_witness :
  let l := WaitForLocalizationTF_on_timeout
             (fst (WaitForLocalizationTF_on_init WaitForLocalizationTF_init)) in
  fst (Localizer_run (worker_steps [TfFound true; TfFound true; TfFound true]) (l, AtSleep)) = l.
Proof.
  refine (proj1 worker_reads_flag_at_loop_top
            (WaitForLocalizationTF_on_timeout
               (fst (WaitForLocalizationTF_on_init WaitForLocalizationTF_init)))
            AtSleep [TfFound true; TfFound true; TfFound true] eq_refl _).
  discriminate.
Defined.

End PollWorkers.

Section RateLoops.
Import Nav.



Lemma re_match_dot_star (msg : string) : re_match ".*" msg = true.
Proof. unfold re_match. simpl. destruct (list_ascii_of_string msg); reflexivity. Qed.

Lemma handler_matches_path_ok cls (n : TreeNode) :
  handler_matches cls n (path_ok_entry cls) = bool_decide (status n = SUCCESS).
Proof.
  unfold handler_matches, path_ok_entry. simpl.
  rewrite re_match_dot_star, andb_true_r.
  rewrite bool_decide_eq_true_2 by reflexivity. simpl.
  apply bool_decide_ext. rewrite list_elem_of_singleton. reflexivity.
Qed.

Lemma apply_contingencies_path_ok self cls w c :
  loop_child self cls ->
  rl_handlers w = [path_ok_entry cls] ->
  rl_child_class w = Some cls ->
  rl_child w = Some c ->
  apply_contingencies self w =
    if bool_decide (status (pl_node c) = SUCCESS)
    then set_current_child_status RUNNING w else w.
Proof.
  intros Hpair Hh Hc Hch. unfold apply_contingencies.
  rewrite Hch, Hc, Hh. simpl. rewrite handler_matches_path_ok.
  destruct (bool_decide (status (pl_node c) = SUCCESS)); [|reflexivity].
  destruct Hpair; reflexivity.
Qed.

Lemma child_on_tick_suspended self cls p :
  loop_child self cls -> status (pl_node (child_on_tick cls p)) = SUSPENDED.
Proof. intros []; reflexivity. Qed.

Lemma child_result_callback_status self cls r c :
  loop_child self cls ->
  status (pl_node (child_result_callback cls r c)) = SUCCESS \/
  status (pl_node (child_result_callback cls r c)) = status (pl_node c).
Proof.
  intros []; simpl;
    [unfold ComputePathToPoseAction_result_callback
    |unfold ComputePathThroughPosesAction_result_callback];
    repeat case_decide; simpl; auto.
Qed.


Lemma loop_inv_init self cls start goal goals :
  loop_child self cls ->
  loop_inv cls (rl_bind start goal goals
                  match self with
                  | ComputePathThroughPosesActionRateLoop => ComputePathThroughPosesActionRateLoop_init
                  | _ => ComputePathToPoseActionRateLoop_init
                  end).
Proof. intros []; split; try reflexivity; intros c Hc; discriminate. Qed.

Lemma rate_tick_inv self cls now w :
  loop_child self cls -> loop_inv cls w -> loop_inv cls (rate_tick self now w).
Proof.
  intros Hpair [Hh Hc Hs Hch]. unfold rate_tick.
  set (w1 := if rate_due now w then _ else w).
  assert (H1 : rl_handlers w1 = [path_ok_entry cls] /\ rl_child_class w1 = Some cls /\
               status (rl_node w1) = RUNNING /\
               forall c, rl_child w1 = Some c -> status (pl_node c) <> FAILURE).
  { subst w1. destruct (rate_due now w); [|auto]. rewrite Hc. simpl.
    repeat split; try assumption.
    intros c Hsome. inversion Hsome; subst.
    rewrite (child_on_tick_suspended self cls) by assumption. discriminate. }
  clearbody w1. destruct H1 as (Hh1 & Hc1 & Hs1 & Hch1).
  destruct (rl_child w1) as [c|] eqn:Ec.
  - rewrite (apply_contingencies_path_ok self cls w1 c) by assumption.
    destruct (bool_decide (status (pl_node c) = SUCCESS)) eqn:Eb.
    + unfold set_current_child_status. rewrite Ec. simpl.
      destruct (pl_path c); simpl; split; simpl; try assumption; try reflexivity;
        intros c' Hc'; inversion Hc'; subst; simpl; discriminate.
    + apply bool_decide_eq_false in Eb. rewrite Ec.
      pose proof (Hch1 c eq_refl) as Hnf.
      destruct (status (pl_node c)) eqn:Est; try congruence; simpl;
        destruct (pl_path c); simpl; split; simpl; try assumption; try reflexivity;
        intros c' Hc'; rewrite Ec in Hc'; inversion Hc'; subst; congruence.
  - assert (Ha : apply_contingencies self w1 = w1).
    { unfold apply_contingencies. rewrite Ec. reflexivity. }
    rewrite Ha, Ec. split; try assumption.
    intros c Hsome. rewrite Ec in Hsome. discriminate.
Qed.

Lemma rate_event_inv self cls e w :
  loop_child self cls -> child_never_fails e = true ->
  loop_inv cls w -> loop_inv cls (rate_event self e w).
Proof.
  intros Hpair He Hinv. destruct e as [now|r|s msg]; simpl.
  - apply rate_tick_inv; assumption.
  - destruct Hinv as [Hh Hc Hs Hch].
    destruct (rl_child w) as [c|] eqn:Ec; [|split; try assumption; rewrite Ec; assumption].
    rewrite Hc. split; simpl; try assumption.
    intros c' Hc'. inversion Hc'; subst.
    destruct (child_result_callback_status self cls r c Hpair) as [-> | ->];
      [discriminate | apply Hch; reflexivity].
  - destruct Hinv as [Hh Hc Hs Hch].
    destruct (rl_child w) as [c|] eqn:Ec; [|split; try assumption; rewrite Ec; assumption].
    split; simpl; try assumption.
    intros c' Hc'. inversion Hc'; subst. simpl.
    destruct s; simpl in He; congruence.
Qed.

Lemma rate_run_inv self cls es w :
  loop_child self cls -> forallb child_never_fails es = true ->
  loop_inv cls w -> loop_inv cls (rate_run self es w).
Proof.
  intros Hpair. revert w. induction es as [|e es IH]; intros w Hes Hinv; [exact Hinv|].
  simpl in Hes. apply andb_true_iff in Hes as [He Hes].
  unfold rate_run, run_events in *. simpl. apply IH; [assumption|].
  apply rate_event_inv; assumption.
Qed.

(** C4 -- the rate-controlled planning loops.  Each constructor registers one
    contingency handler, for the class of its child, with trigger statuses
    {SUCCESS} and pattern '.*'; whenever the child is in SUCCESS, with any
    contingency message, the dispatch runs this handler and the child is back
    in RUNNING; and over every sequence of ticks, action results and other
    writes to the child in which the child never fails, the loop's own status
    is RUNNING, never a terminal one. *)
Theorem rate_loop_keeps_running :
  (rl_handlers ComputePathToPoseActionRateLoop_init =
     [mkContingencyHandler ComputePathToPoseAction [SUCCESS] ".*" handle_path_ok] /\
   rl_child_class ComputePathToPoseActionRateLoop_init = Some ComputePathToPoseAction /\
   rl_handlers ComputePathThroughPosesActionRateLoop_init =
     [mkContingencyHandler ComputePathThroughPosesAction [SUCCESS] ".*" handle_path_ok] /\
   rl_child_class ComputePathThroughPosesActionRateLoop_init =
     Some ComputePathThroughPosesAction) /\
  (forall (c : Planner) (msg : string),
      let c1 := planner_with_node
                  (set_contingency_message msg (set_status SUCCESS (pl_node c))) c in
      (status <$> (pl_node <$> rl_child
         (apply_contingencies ComputePathToPoseActionRateLoop
            (rl_with_child (Some c1) ComputePathToPoseActionRateLoop_init)))) = Some RUNNING /\
      (status <$> (pl_node <$> rl_child
         (apply_contingencies ComputePathThroughPosesActionRateLoop
            (rl_with_child (Some c1) ComputePathThroughPosesActionRateLoop_init)))) = Some RUNNING) /\
  (forall (start goal : option PoseStamped) (goals : list PoseStamped) (es : list RateEvent),
      forallb child_never_fails es = true ->
      status (rl_node (rate_run ComputePathToPoseActionRateLoop es
                         (rl_bind start goal goals ComputePathToPoseActionRateLoop_init)))
        = RUNNING /\
      status (rl_node (rate_run ComputePathThroughPosesActionRateLoop es
                         (rl_bind start goal goals ComputePathThroughPosesActionRateLoop_init)))
        = RUNNING).
Proof.
  split; [repeat split|]. split.
  - intros c msg c1. split.
    + rewrite (apply_contingencies_path_ok _ ComputePathToPoseAction _ c1);
        try reflexivity; constructor.
    + rewrite (apply_contingencies_path_ok _ ComputePathThroughPosesAction _ c1);
        try reflexivity; constructor.
  - intros start goal goals es Hes. split.
    + apply (inv_status ComputePathToPoseAction).
      apply rate_run_inv; [constructor | assumption |].
      apply (loop_inv_init ComputePathToPoseActionRateLoop). constructor.
    + apply (inv_status ComputePathThroughPosesAction).
      apply rate_run_inv; [constructor | assumption |].
      apply (loop_inv_init ComputePathThroughPosesActionRateLoop). constructor.
Qed.

(** A tick, a planned path, two more ticks, an aborted goal and a last tick. *)
Lemma rate_loop_keeps_running_witness :
  let es := [RTick 0; RResult (mkPlanResult STATUS_SUCCEEDED [mkPose "map" 1 1]);
             RTick 500; RTick 1000; RResult (mkPlanResult STATUS_ABORTED []); RTick 2500] in
  status (rl_node (rate_run ComputePathToPoseActionRateLoop es
                     (rl_bind None (Some (mkPose "map" 5 5)) []
                        ComputePathToPoseActionRateLoop_init))) = RUNNING /\
  status (rl_node (rate_run ComputePathThroughPosesActionRateLoop es
                     (rl_bind None (Some (mkPose "map" 5 5)) []
                        ComputePathThroughPosesActionRateLoop_init))) = RUNNING.
Proof.
  exact (proj2 (proj2 rate_loop_keeps_running) None (Some (mkPose "map" 5 5)) []
           [RTick 0; RResult (mkPlanResult STATUS_SUCCEEDED [mkPose "map" 1 1]);
            RTick 500; RTick 1000; RResult (mkPlanResult STATUS_ABORTED []); RTick 2500]
           eq_refl).
Defined.

(** The planned path reaches the loop's ?path output while the loop goes on,
    and the child is RUNNING again after the tick that follows its SUCCESS. *)
Example rate_loop_publishes_path :
  let w := rate_run ComputePathToPoseActionRateLoop
             [RTick 0; RResult (mkPlanResult STATUS_SUCCEEDED [mkPose "map" 1 1]); RTick 500]
             ComputePathToPoseActionRateLoop_init in
  rl_path w = Some [mkPose "map" 1 1] /\
  (status <$> (pl_node <$> rl_child w)) = Some RUNNING /\
  status (rl_node w) = RUNNING.
Proof. repeat split. Qed.

(** The registration is what keeps the loop going: a failing child, and a
    succeeding child of a loop without the handler, end the loop. *)
Example rate_loop_child_failure_propagates :
  let w := rate_run ComputePathToPoseActionRateLoop
             [RTick 0; RChildWrite FAILURE "PLANNER_DOWN"; RTick 500]
             ComputePathToPoseActionRateLoop_init in
  status (rl_node w) = FAILURE /\ contingency_message (rl_node w) = "PLANNER_DOWN".
Proof. repeat split. Qed.

Example rate_loop_without_handler_succeeds :
  let bare := set_child ComputePathToPoseAction "?start ?goal => ?path"
                (RateControlNode_init 1000 "?start ?goal => ?path") in
  status (rl_node (rate_run ComputePathToPoseActionRateLoop
                     [RTick 0; RResult (mkPlanResult STATUS_SUCCEEDED []); RTick 500] bare))
    = SUCCESS.
Proof. reflexivity. Qed.

End RateLoops.

Section ParallelNodes.
Import Nav.

(** C6 -- ApproachPose and ApproachPoseThroughPoses.  Each is constructed with
    success threshold 1; on_init adds exactly three children, in this order:
    a rate-control loop of the planner with output ?path, FollowPathAction
    with input ?path, CreateFollowPathFeedback with input ?path (and output
    ?feedback).  With threshold 1 the parallel node is in SUCCESS as soon as
    the follower is, whatever the status of the other two. *)
Theorem approach_pose_children :
  pa_success_threshold ApproachPose_init = 1 /\
  pa_success_threshold ApproachPoseThroughPoses_init = 1 /\
  pa_children ApproachPose_init = [] /\
  pa_children ApproachPoseThroughPoses_init = [] /\
  pa_children (ApproachPose_on_init ApproachPose_init) =
    [(ComputePathToPoseActionRateLoop, "None ?goal => ?path");
     (FollowPathAction, "?path");
     (CreateFollowPathFeedback, "?path => ?feedback")] /\
  pa_children (ApproachPoseThroughPoses_on_init ApproachPoseThroughPoses_init) =
    [(ComputePathThroughPosesActionRateLoop, "None ?goals => ?path");
     (FollowPathAction, "?path");
     (CreateFollowPathFeedback, "?path => ?feedback")] /\
  pa_success_threshold (ApproachPose_on_init ApproachPose_init) = 1 /\
  pa_success_threshold (ApproachPoseThroughPoses_on_init ApproachPoseThroughPoses_init) = 1 /\
  base_class ComputePathToPoseActionRateLoop = RateControlNode /\
  base_class ComputePathThroughPosesActionRateLoop = RateControlNode /\
  param_outputs "None ?goal => ?path" = ["?path"] /\
  param_outputs "None ?goals => ?path" = ["?path"] /\
  param_inputs "?path" = ["?path"] /\
  param_outputs "?path" = [] /\
  param_inputs "?path => ?feedback" = ["?path"] /\
  param_outputs "?path => ?feedback" = ["?feedback"] /\
  (forall loop feedback : NodeStatus,
      parallel_status (pa_success_threshold (ApproachPose_on_init ApproachPose_init))
        [loop; SUCCESS; feedback] = SUCCESS /\
      parallel_status
        (pa_success_threshold (ApproachPoseThroughPoses_on_init ApproachPoseThroughPoses_init))
        [loop; SUCCESS; feedback] = SUCCESS).
Proof.
  repeat split; try reflexivity; destruct loop, feedback; reflexivity.
Qed.

(** Before the follower is done the node has not succeeded through it. *)
Example approach_pose_waits_for_follower :
  parallel_status 1 [RUNNING; SUSPENDED; RUNNING] = RUNNING /\
  parallel_status 1 [RUNNING; FAILURE; RUNNING] = RUNNING.
Proof. split; reflexivity. Qed.

End ParallelNodes.

Section KnowledgeRelay.
Import KbTiny.


(** Without a logger every request raises, a well-formed one too. *)
Lemma query_callback_plain_Kb dyn request response :
  query_callback dyn plain_Kb request response = (Raise AttributeError, plain_Kb).
Proof. reflexivity. Qed.

Lemma Kb_init_plain kbfile :
  Kb_init plain_Kb kbfile = (Raise AttributeError, plain_Kb).
Proof. reflexivity. Qed.

Lemma caught_classes e :
  caught e = true <-> e = AttributeError \/ e = RuntimeError \/
                      e = NotImplementedError \/ e = RecursionError.
Proof.
  destruct e; unfold caught; simpl; split; intros H;
    try discriminate; try reflexivity; try tauto;
    repeat (destruct H as [H|H]; try discriminate).
Qed.




(** The outcomes on concrete evaluators.  The last two are texts that change
    the objects: one leaves a logger that cannot be called, and the call ends
    with the TypeError of the log line after exec; one reads the response it
    was given. *)
Example query_callback_examples :
  fst (query_callback empty_db node_Kb "all()" fresh_response)
    = Return (mkResponse true "[]") /\
  fst (query_callback (fun _ s r => Raised AttributeError s r) node_Kb "nothing" fresh_response)
    = Return (mkResponse false "<class 'AttributeError'>") /\
  fst (query_callback (fun _ s r => Raised NotImplementedError s r) node_Kb "all()"
         fresh_response)
    = Return (mkResponse false "<class 'NotImplementedError'>") /\
  fst (query_callback (fun _ s r => Raised TypeError s r) node_Kb "get(1, 2, 3, 4)"
         fresh_response)
    = Raise TypeError /\
  fst (query_callback unbinds_logger node_Kb "all()); self.get_logger = None; str(1"
         fresh_response)
    = Raise TypeError /\
  fst (query_callback (fun _ s r => Evaluated s (mkResponse (success r) ("[]" ++ result r)))
         node_Kb "all()) + response.result + str(" (mkResponse false "old"))
    = Return (mkResponse true "[]old").
Proof. repeat split. Qed.

End KnowledgeRelay.

Section SimpleKbErrors.
Import SimpleKb.
Context {Value : Type} (py_eq : Value -> Value -> bool).

Lemma delete_unfold (keys entry : gmap string Value) (kb : Kb) (w : World) :
  delete py_eq keys entry kb w = (Raise TypeError, (kb, w)).
Proof. reflexivity. Qed.

Lemma call_keeps_uuids (c : Call) (s : Kb * World (Value := Value)) :
  dom (kb_dict (fst s)) ⊆ dom (kb_dict (fst (call py_eq c s))).
Proof.
  destruct s as [kb w]. destruct c; simpl; try reflexivity.
  - rewrite dom_insert. set_solver.
  - unfold update.
    destruct (0 <? length (__get_uuids py_eq flt kb w))%nat; simpl; [reflexivity|].
    rewrite dom_insert. set_solver.
Qed.

Lemma calls_keep_uuids (cs : list Call) (s : Kb * World (Value := Value)) :
  dom (kb_dict (fst s)) ⊆ dom (kb_dict (fst (calls py_eq cs s))).
Proof.
  revert s. induction cs as [|c cs IH]; intros s; [reflexivity|].
  unfold calls in *. simpl.
  etransitivity; [apply (call_keeps_uuids c) | apply IH].
Qed.

(** C8 -- SimpleKb.delete.  Whatever its two arguments and the state of the
    store, delete raises TypeError (its call of __get_uuids gives two
    arguments to a method that declares one) and leaves the store and the
    files as they were; and no sequence of calls of the public methods takes
    a uuid out of the store. *)
Theorem delete_always_raises :
  (forall (keys entry : gmap string Value) (kb : Kb) (w : World),
      delete py_eq keys entry kb w = (Raise TypeError, (kb, w))) /\
  (forall (cs : list Call) (kb : Kb) (w : World (Value := Value)),
      dom (kb_dict kb) ⊆ dom (kb_dict (fst (calls py_eq cs (kb, w)))) /\
      (count kb <= count (fst (calls py_eq cs (kb, w))))%nat).
Proof.
  split; [intros; apply delete_unfold|].
  intros cs kb w.
  pose proof (calls_keep_uuids cs (kb, w)) as Hsub. simpl in Hsub.
  split; [exact Hsub|].
  unfold count. rewrite <- !size_dom. apply subseteq_size. exact Hsub.
Qed.


End SimpleKbErrors.

Section SimpleKbUpdate.
Import SimpleKb.
Context {Value : Type} (py_eq : Value -> Value -> bool).

(** *** __get_uuids selects the entries that match *)

Lemma match_dict_lookup (flt e : gmap string Value) (k : string) :
  match_dict py_eq flt e !! k =
    match flt !! k, e !! k with
    | Some fv, Some ev => if py_eq fv ev then Some ev else None
    | _, _ => None
    end.
Proof.
  unfold match_dict. rewrite map_lookup_imap.
  destruct (flt !! k) as [fv|]; simpl; [|reflexivity].
  destruct (e !! k); reflexivity.
Qed.

Lemma match_dict_dom (flt e : gmap string Value) :
  dom (match_dict py_eq flt e) ⊆ dom flt.
Proof.
  intros k. rewrite !elem_of_dom, match_dict_lookup.
  destruct (flt !! k); [eauto | intros [x Hx]; discriminate].
Qed.

(** The comparison of lengths in __get_uuids says that every key of the
    filter matched. *)
Lemma match_dict_size (flt e : gmap string Value) :
  size flt = size (match_dict py_eq flt e) <-> matches py_eq flt e.
Proof.
  rewrite <- !size_dom. split.
  - intros Hsize k fv Hk.
    assert (Heq : dom (match_dict py_eq flt e) = dom flt).
    { apply set_subseteq_size_eq; [apply match_dict_dom | lia]. }
    assert (Hin : k ∈ dom (match_dict py_eq flt e)).
    { rewrite Heq. apply elem_of_dom. eauto. }
    apply elem_of_dom in Hin as [x Hx].
    rewrite match_dict_lookup, Hk in Hx.
    destruct (e !! k) as [ev|]; [|discriminate].
    destruct (py_eq fv ev) eqn:Hpe; [|discriminate]. eauto.
  - intros Hm. f_equal. apply set_eq. intros k. split; [|apply match_dict_dom].
    rewrite !elem_of_dom. intros [fv Hk].
    destruct (Hm k fv Hk) as (ev & He & Hpe).
    rewrite match_dict_lookup, Hk, He, Hpe. eauto.
Qed.

Lemma get_uuids_spec (flt : gmap string Value) (kb : Kb) (w : World) (uuid : string) :
  uuid ∈ __get_uuids py_eq flt kb w <->
  exists r, kb_dict kb !! uuid = Some r /\ matches py_eq flt (entry_at (heap w) r).
Proof.
  unfold __get_uuids. rewrite list_elem_of_fmap. split.
  - intros ([uuid' r] & -> & Hin). apply list_elem_of_filter in Hin as [Hsz Hin].
    apply elem_of_map_to_list in Hin. exists r. split; [exact Hin|].
    apply match_dict_size. exact Hsz.
  - intros (r & Hk & Hm). exists (uuid, r). split; [reflexivity|].
    apply list_elem_of_filter. split; [|apply elem_of_map_to_list; exact Hk].
    apply match_dict_size. exact Hm.
Qed.

Lemma get_uuids_nonempty (flt : gmap string Value) (kb : Kb) (w : World) :
  (0 <? length (__get_uuids py_eq flt kb w))%nat = true <->
  exists uuid r, kb_dict kb !! uuid = Some r /\ matches py_eq flt (entry_at (heap w) r).
Proof.
  rewrite Nat.ltb_lt. split.
  - intros Hlen. destruct (__get_uuids py_eq flt kb w) as [|uuid l] eqn:E; [simpl in Hlen; lia|].
    exists uuid. apply get_uuids_spec. rewrite E. left.
  - intros (uuid & Hu). apply get_uuids_spec in Hu.
    destruct (__get_uuids py_eq flt kb w); [inversion Hu | simpl; lia].
Qed.

(** *** The loops of update *)

Lemma entry_at_insert (h : gmap nat (gmap string Value)) (r r' : nat) (e : gmap string Value) :
  entry_at (<[r := e]> h) r' = if decide (r' = r) then e else entry_at h r'.
Proof.
  unfold entry_at. destruct (decide (r' = r)) as [->|Hne].
  - rewrite lookup_insert_eq. reflexivity.
  - rewrite lookup_insert_ne by congruence. reflexivity.
Qed.

Lemma patch_lookup (u : gmap string Value) (ks : list string) (e : gmap string Value) (k : string) :
  patch u ks e !! k =
    match u !! k with
    | Some v => if decide (k ∈ ks) then Some v else e !! k
    | None => e !! k
    end.
Proof.
  revert e. induction ks as [|a ks IH]; intros e.
  - simpl. destruct (u !! k); reflexivity.
  - unfold patch in *. cbn [foldl]. rewrite IH.
    destruct (u !! k) as [v|] eqn:Hk.
    + destruct (decide (k ∈ ks)) as [Hin|Hnin].
      * rewrite decide_True by (right; exact Hin). reflexivity.
      * destruct (decide (k = a)) as [->|Hne].
        -- rewrite decide_True by left. rewrite Hk, lookup_insert_eq. reflexivity.
        -- rewrite decide_False by (rewrite elem_of_cons; tauto).
           destruct (u !! a); [rewrite lookup_insert_ne by congruence|]; reflexivity.
    + destruct (u !! a) eqn:Ha; [|reflexivity].
      rewrite lookup_insert_ne by congruence. reflexivity.
Qed.

Lemma patch_all_keys (u e : gmap string Value) :
  patch u (map_to_list u).*1 e = u ∪ e.
Proof.
  apply map_eq. intros k. rewrite patch_lookup, lookup_union.
  destruct (u !! k) as [v|] eqn:Hk.
  - rewrite decide_True.
    + destruct (e !! k); reflexivity.
    + apply list_elem_of_fmap. exists (k, v). split; [reflexivity|].
      apply elem_of_map_to_list. exact Hk.
  - destruct (e !! k); reflexivity.
Qed.

Lemma patch_self (u : gmap string Value) (ks : list string) : patch u ks u = u.
Proof.
  apply map_eq. intros k. rewrite patch_lookup.
  destruct (u !! k) eqn:Hk; [|reflexivity]. destruct (decide (k ∈ ks)); reflexivity.
Qed.

Lemma set_key_entry_at upd r (h : gmap nat (gmap string Value)) key r' :
  entry_at (set_key upd r h key) r' =
    if decide (r' = r) then patch (entry_at h upd) [key] (entry_at h r') else entry_at h r'.
Proof.
  unfold set_key, patch. simpl.
  destruct (entry_at h upd !! key) as [v|].
  - rewrite entry_at_insert. destruct (decide (r' = r)) as [->|]; reflexivity.
  - destruct (decide (r' = r)); reflexivity.
Qed.

Lemma set_key_keeps_update upd r (h : gmap nat (gmap string Value)) key :
  entry_at (set_key upd r h key) upd = entry_at h upd.
Proof.
  rewrite set_key_entry_at. destruct (decide (upd = r)); [|reflexivity].
  apply patch_self.
Qed.

Lemma foldl_set_key upd r ks (h : gmap nat (gmap string Value)) r' :
  entry_at (foldl (set_key upd r) h ks) upd = entry_at h upd /\
  entry_at (foldl (set_key upd r) h ks) r' =
    if decide (r' = r) then patch (entry_at h upd) ks (entry_at h r') else entry_at h r'.
Proof.
  revert h. induction ks as [|k ks IH]; intros h; simpl.
  - split; [reflexivity|]. destruct (decide (r' = r)); reflexivity.
  - destruct (IH (set_key upd r h k)) as [IHu IHr].
    rewrite IHu, IHr, set_key_keeps_update. split; [reflexivity|].
    rewrite set_key_entry_at. destruct (decide (r' = r)); reflexivity.
Qed.

(** One pass of "for key in update" over the entry at [r]: the entry becomes
    the update laid over it; no other dict changes. *)
Lemma update_entry_spec upd (h : gmap nat (gmap string Value)) r r' :
  entry_at (update_entry upd h r) r' =
    if decide (r' = r) then entry_at h upd ∪ entry_at h r' else entry_at h r'.
Proof.
  unfold update_entry.
  destruct (foldl_set_key upd r (map_to_list (entry_at h upd)).*1 h r') as [_ ->].
  destruct (decide (r' = r)); [|reflexivity]. apply patch_all_keys.
Qed.

Lemma update_entry_keeps_update upd (h : gmap nat (gmap string Value)) r :
  entry_at (update_entry upd h r) upd = entry_at h upd.
Proof.
  rewrite update_entry_spec. destruct (decide (upd = r)); [|reflexivity].
  apply (idemp_L (∪)).
Qed.

Lemma update_all_spec upd (d : gmap string nat) uuids :
  forall h : gmap nat (gmap string Value),
    entry_at (update_all upd d h uuids) upd = entry_at h upd /\
    (forall r', entry_at (update_all upd d h uuids) r' = entry_at h r' \/
                entry_at (update_all upd d h uuids) r' = entry_at h upd ∪ entry_at h r') /\
    (forall uuid r', uuid ∈ uuids -> d !! uuid = Some r' ->
                entry_at (update_all upd d h uuids) r' = entry_at h upd ∪ entry_at h r').
Proof.
  induction uuids as [|a uuids IH]; intros h.
  - split; [reflexivity|]. split; [left; reflexivity|].
    intros uuid r' Hin. inversion Hin.
  - unfold update_all in *. simpl.
    set (h1 := match d !! a with Some r => update_entry upd h r | None => h end).
    assert (Hu1 : entry_at h1 upd = entry_at h upd).
    { subst h1. destruct (d !! a); [apply update_entry_keeps_update | reflexivity]. }
    assert (H1 : forall r', entry_at h1 r' = entry_at h r' \/
                            entry_at h1 r' = entry_at h upd ∪ entry_at h r').
    { intros r'. subst h1. destruct (d !! a) as [ra|]; [|left; reflexivity].
      rewrite update_entry_spec. destruct (decide (r' = ra)); [right|left]; reflexivity. }
    destruct (IH h1) as (IHu & IHany & IHin).
    rewrite Hu1 in IHu, IHany, IHin.
    assert (Habsorb : forall r', entry_at h1 r' = entry_at h upd ∪ entry_at h r' ->
              entry_at h upd ∪ entry_at h1 r' = entry_at h upd ∪ entry_at h r').
    { intros r' ->. rewrite (assoc_L (∪)), (idemp_L (∪)). reflexivity. }
    split; [exact IHu|]. split.
    + intros r'. destruct (IHany r') as [-> | ->]; [apply H1|].
      destruct (H1 r') as [-> | Hr]; [right; reflexivity|].
      right. apply Habsorb. exact Hr.
    + intros uuid r' Hin Hd. apply elem_of_cons in Hin as [-> | Hin].
      * assert (Hr : entry_at h1 r' = entry_at h upd ∪ entry_at h r').
        { subst h1. rewrite Hd, update_entry_spec, decide_True by reflexivity. reflexivity. }
        destruct (IHany r') as [-> | ->]; [exact Hr | apply Habsorb; exact Hr].
      * rewrite (IHin uuid r' Hin Hd).
        destruct (H1 r') as [-> | Hr]; [reflexivity | apply Habsorb; exact Hr].
Qed.

Lemma save_keeps_heap (sync : bool) (kb : Kb) (w : World (Value := Value)) :
  heap (__save sync kb w) = heap w.
Proof. destruct sync; reflexivity. Qed.

(** C9 -- SimpleKb.update is an upsert.  When at least one stored entry
    matches the filter, every matching entry has each key of the update
    mapping at the update's value afterwards, and the store has the same
    uuids, so the same number of entries.  When no entry matches and the uuid
    drawn is not in the store, the store gets one more uuid, bound to the
    update mapping itself, whose contents are unchanged, and the number of
    entries grows by exactly one. *)
Theorem update_is_upsert
    (new_uuid : string) (flt : gmap string Value) (upd : nat) (kb : Kb) (w : World) :
  let s' := update py_eq new_uuid flt upd kb w in
  let u := entry_at (heap w) upd in
  let some_match :=
    exists uuid r, kb_dict kb !! uuid = Some r /\ matches py_eq flt (entry_at (heap w) r) in
  (some_match ->
     kb_dict (fst s') = kb_dict kb /\
     count (fst s') = count kb /\
     forall uuid r, kb_dict kb !! uuid = Some r ->
       matches py_eq flt (entry_at (heap w) r) ->
       forall k v, u !! k = Some v -> entry_at (heap (snd s')) r !! k = Some v) /\
  (~ some_match -> kb_dict kb !! new_uuid = None ->
     kb_dict (fst s') = <[new_uuid := upd]> (kb_dict kb) /\
     entry_at (heap (snd s')) upd = u /\
     heap (snd s') = heap w /\
     count (fst s') = S (count kb)).
Proof.
  intros s' u some_match. subst s'. unfold update.
  destruct (0 <? length (__get_uuids py_eq flt kb w))%nat eqn:Hlen.
  - split; [|intros Hno; exfalso; apply Hno, get_uuids_nonempty; exact Hlen].
    intros _. cbn [fst snd]. rewrite save_keeps_heap. cbn [heap].
    split; [reflexivity|]. split; [reflexivity|].
    intros uuid r Hk Hm k v Hu.
    destruct (update_all_spec upd (kb_dict kb) (__get_uuids py_eq flt kb w) (heap w))
      as (_ & _ & Hin).
    rewrite (Hin uuid r); [|apply get_uuids_spec; eauto | exact Hk].
    apply lookup_union_Some_l. exact Hu.
  - split.
    { intros Hsome. apply get_uuids_nonempty in Hsome. congruence. }
    intros _ Hfresh. cbn [fst snd]. rewrite save_keeps_heap.
    split; [reflexivity|]. split; [reflexivity|]. split; [reflexivity|].
    unfold count. simpl. apply map_size_insert_None. exact Hfresh.
Qed.

End SimpleKbUpdate.

Section SimpleKbExamples.
Import SimpleKb.

Lemma example_some_match :
  exists uuid r, kb_dict example_kb !! uuid = Some r /\
                 matches jvalue_eq robot_filter (entry_at (heap example_world) r).
Proof.
  exists "u1", 1%nat. split; [reflexivity|].
  intros k fv Hk. unfold robot_filter in Hk.
  apply lookup_singleton_Some in Hk as [<- <-].
  exists (JStr "robot"). split; reflexivity.
Qed.

Lemma example_no_match :
  ~ exists uuid r, kb_dict example_kb !! uuid = Some r /\
                   matches jvalue_eq arm_filter (entry_at (heap example_world) r).
Proof.
  intros (uuid & r & Hk & Hm). simpl in Hk.
  apply lookup_singleton_Some in Hk as [<- <-].
  destruct (Hm "name" (JStr "arm")) as (ev & He & Hpe); [reflexivity|].
  vm_compute in He. inversion He; subst. discriminate.
Qed.

(** The example store updated with a filter that matches its entry, and with
    one that matches nothing. *)
Lemma update_is_upsert_witness :
  (let s' := update jvalue_eq "u2" robot_filter 2 example_kb example_world in
   kb_dict (fst s') = kb_dict example_kb /\
   count (fst s') = count example_kb /\
   forall uuid r, kb_dict example_kb !! uuid = Some r ->
     matches jvalue_eq robot_filter (entry_at (heap example_world) r) ->
     forall k v, entry_at (heap example_world) 2 !! k = Some v ->
                 entry_at (heap (snd s')) r !! k = Some v) /\
  (let s' := update jvalue_eq "u2" arm_filter 2 example_kb example_world in
   kb_dict (fst s') = <["u2" := 2%nat]> (kb_dict example_kb) /\
   entry_at (heap (snd s')) 2 = entry_at (heap example_world) 2 /\
   heap (snd s') = heap example_world /\
   count (fst s') = S (count example_kb)).
Proof.
  exact (conj
           (proj1 (update_is_upsert jvalue_eq "u2" robot_filter 2 example_kb example_world)
                  example_some_match)
           (proj2 (update_is_upsert jvalue_eq "u2" arm_filter 2 example_kb example_world)
                  example_no_match eq_refl)).
Defined.

(** The entry after the matching update, and what save would find in the
    file: the store is synchronised to its file by update. *)
Example update_example_values :
  let s' := update jvalue_eq "u2" robot_filter 2 example_kb example_world in
  entry_at (heap (snd s')) 1 !! "x" = Some (JInt 5) /\
  entry_at (heap (snd s')) 1 !! "name" = Some (JStr "robot") /\
  count (fst s') = 1%nat /\
  ((files (snd s') !! "kb.json"
      ≫= (fun d : gmap string (gmap string JValue) => d !! "u1"))
      ≫= (fun e : gmap string JValue => e !! "x")) = Some (JInt 5).
Proof. vm_compute. repeat split. Qed.

(** Two uuids bound to one dict object: the update through the one that
    matches is seen through both. *)
Example update_shared_entry :
  let kb := mkKb "kb.json" false (<["u2" := 1%nat]> {["u1" := 1%nat]}) in
  let s' := update jvalue_eq "u3" robot_filter 2 kb example_world in
  (kb_dict (fst s') !! "u1" ≫= (fun r => entry_at (heap (snd s')) r !! "x")) = Some (JInt 5) /\
  (kb_dict (fst s') !! "u2" ≫= (fun r => entry_at (heap (snd s')) r !! "x")) = Some (JInt 5) /\
  count (fst s') = 2%nat.
Proof. vm_compute. repeat split. Qed.

(** Python's == on the example values. *)
Example jvalue_eq_examples :
  jvalue_eq (JBool true) (JInt 1) = true /\ jvalue_eq (JInt 0) (JBool false) = true /\
  jvalue_eq (JStr "1") (JInt 1) = false /\ jvalue_eq JNull (JBool false) = false.
Proof. repeat split. Qed.

End SimpleKbExamples.

(** * Further properties of the navigation nodes *)

Section ActionResults.
Import Nav.

(** A planner's result callback acts on STATUS_SUCCEEDED only: with any other
    status code (canceled, aborted, unknown, ...) the node is returned as it
    was, for both planners. *)
Theorem planner_result_callback_other_status (r : PlanResult) (p : Planner) :
  res_status r <> STATUS_SUCCEEDED ->
  ComputePathToPoseAction_result_callback r p = p /\
  ComputePathThroughPosesAction_result_callback r p = p.
Proof.
  intros Hne.
  unfold ComputePathToPoseAction_result_callback, ComputePathThroughPosesAction_result_callback.
  rewrite decide_False by exact Hne.
  destruct (decide (res_status r = STATUS_ABORTED)); split; reflexivity.
Qed.

Lemma planner_result_callback_other_status_witness :
  ComputePathToPoseAction_result_callback (mkPlanResult STATUS_CANCELED [])
    (mkPlanner new_tree_node None None [] None empty_plan_goal)
    = mkPlanner new_tree_node None None [] None empty_plan_goal /\
  ComputePathThroughPosesAction_result_callback (mkPlanResult STATUS_CANCELED [])
    (mkPlanner new_tree_node None None [] None empty_plan_goal)
    = mkPlanner new_tree_node None None [] None empty_plan_goal.
Proof.
  refine (planner_result_callback_other_status (mkPlanResult STATUS_CANCELED [])
            (mkPlanner new_tree_node None None [] None empty_plan_goal) _).
  discriminate.
Defined.

(** No result of an action, whatever its status code, writes FAILURE or a
    contingency message: after a result callback the node has the status it had
    or SUCCESS, its message and timeout are the ones it had, and the follower's
    paths and goal message are untouched. *)
Theorem result_callbacks_never_fail (r : PlanResult) (uuid : string) (p : Planner) (f : Follower) :
  let p1 := ComputePathToPoseAction_result_callback r p in
  let p2 := ComputePathThroughPosesAction_result_callback r p in
  let f' := FollowPathAction_result_callback (res_status r) uuid f in
  (status (pl_node p1) = status (pl_node p) \/ status (pl_node p1) = SUCCESS) /\
  (status (pl_node p2) = status (pl_node p) \/ status (pl_node p2) = SUCCESS) /\
  (status (fo_node f') = status (fo_node f) \/ status (fo_node f') = SUCCESS) /\
  contingency_message (pl_node p1) = contingency_message (pl_node p) /\
  contingency_message (pl_node p2) = contingency_message (pl_node p) /\
  contingency_message (fo_node f') = contingency_message (fo_node f) /\
  timeout_ms (fo_node f') = timeout_ms (fo_node f) /\
  fo_path f' = fo_path f /\ fo_current_path f' = fo_current_path f /\
  fo_goal_msg f' = fo_goal_msg f /\
  (pl_path p1 = pl_path p \/ pl_path p1 = Some (res_path r)).
Proof.
  unfold ComputePathToPoseAction_result_callback, ComputePathThroughPosesAction_result_callback,
    FollowPathAction_result_callback.
  destruct (decide (res_status r = STATUS_SUCCEEDED));
    destruct (decide (res_status r = STATUS_ABORTED)); simpl; tauto.
Qed.

(** Ticking a planner is idempotent and leaves the node SUSPENDED with a goal
    message that carries the goal and has use_start set exactly when ?start is
    given.  When ?start is None the start field of the message is not
    cleared: it keeps the value an earlier tick left there. *)
Theorem planner_on_tick_goal_message (p : Planner) :
  let p1 := ComputePathToPoseAction_on_tick p in
  let p2 := ComputePathThroughPosesAction_on_tick p in
  ComputePathToPoseAction_on_tick p1 = p1 /\
  ComputePathThroughPosesAction_on_tick p2 = p2 /\
  status (pl_node p1) = SUSPENDED /\ status (pl_node p2) = SUSPENDED /\
  g_use_start (pl_goal_msg p1) = bool_decide (pl_start p <> None) /\
  g_use_start (pl_goal_msg p2) = bool_decide (pl_start p <> None) /\
  g_goal (pl_goal_msg p1) = pl_goal p /\
  g_goals (pl_goal_msg p2) = pl_goals p /\
  g_start (pl_goal_msg p1) =
    match pl_start p with Some s => Some s | None => g_start (pl_goal_msg p) end /\
  g_start (pl_goal_msg p2) =
    match pl_start p with Some s => Some s | None => g_start (pl_goal_msg p) end /\
  pl_path p1 = pl_path p /\ pl_path p2 = pl_path p.
Proof.
  unfold ComputePathToPoseAction_on_tick, ComputePathThroughPosesAction_on_tick.
  destruct p as [n start goal goals path g]. simpl.
  destruct start; simpl; repeat split.
Qed.

End ActionResults.

Section FollowerRuns.
Import Nav.

Lemma follow_tick_spec (input : option Path) (f : Follower) :
  let r := follow_tick input f in
  fo_current_path (snd r) =
    match input with Some p => Some p | None => fo_current_path f end /\
  fg_path <$> fst r =
    match input with
    | Some p => if decide (fo_current_path f = Some p) then None else Some p
    | None => None
    end.
Proof.
  unfold follow_tick, FollowPathAction_on_tick. simpl.
  destruct input as [p|]; simpl; [|split; reflexivity].
  unfold path_differs. destruct (fo_current_path f) as [c|] eqn:Ec; simpl.
  - destruct (decide (Some c = Some p)) as [Heq|Hne].
    + inversion Heq; subst. rewrite bool_decide_eq_false_2 by (intros H; apply H; reflexivity).
      simpl. split; reflexivity.
    + rewrite bool_decide_eq_true_2 by congruence. simpl. split; reflexivity.
  - split; reflexivity.
Qed.

(** Over any run of ticks the follower sends exactly the paths that differ
    from the path sent before them: ticks whose ?path is None and ticks whose
    path equals the last one sent send nothing, and a path that comes back
    after a None is not sent again.  After the run the path remembered is the
    last path of the run that was not None. *)
Theorem follow_run_sends_changes (inputs : list (option Path)) (f : Follower) :
  map fg_path (fst (follow_run inputs f)) = changed_paths (fo_current_path f) inputs /\
  fo_current_path (snd (follow_run inputs f)) = last_path (fo_current_path f) inputs.
Proof.
  revert f. induction inputs as [|input inputs IH]; intros f; [split; reflexivity|].
  cbn [follow_run].
  pose proof (follow_tick_spec input f) as [Hcur Hgoal].
  destruct (follow_tick input f) as [g f1]. cbn [fst snd] in Hcur, Hgoal.
  specialize (IH f1). destruct (follow_run inputs f1) as [gs f2]. cbn [fst snd] in *.
  destruct IH as [IHg IHc]. rewrite Hcur in IHg, IHc.
  unfold last_path in *. cbn [fold_left changed_paths].
  destruct input as [p|].
  - destruct (decide (fo_current_path f = Some p)) as [Heq|Hne].
    + destruct g; [discriminate|]. rewrite Heq. split; assumption.
    + destruct g as [g|]; [|discriminate]. inversion Hgoal; subst.
      cbn [map]. rewrite IHg. split; [reflexivity | assumption].
  - destruct g; [discriminate|]. split; assumption.
Qed.

(** A path, no path, the same path again, a new path: two requests. *)
Example follow_run_example :
  let a : Path := [mkPose "map" 1 1] in
  let b : Path := [mkPose "map" 2 2] in
  map fg_path (fst (follow_run [Some a; None; Some a; Some b; Some b] FollowPathAction_init))
    = [a; b].
Proof. reflexivity. Qed.

End FollowerRuns.

Section PollWorkerRuns.
Import Nav.
Local Open Scope list_scope.

Lemma Localizer_failed_round (l : Localizer) (e : TfLookup) :
  lo_thread_running l = true -> tf_completes e = false ->
  Localizer_run [WorkerStep e; WorkerStep e; WorkerStep e] (l, AtCheck) = (l, AtCheck).
Proof.
  intros Hf He. unfold Localizer_run, run_events. simpl. rewrite Hf. simpl.
  destruct e as [|[|]]; simpl in *; try discriminate; reflexivity.
Qed.

Lemma Localizer_failed_rounds (l : Localizer) (fails : list TfLookup) :
  lo_thread_running l = true ->
  forallb (fun e => negb (tf_completes e)) fails = true ->
  Localizer_run (poll_rounds fails) (l, AtCheck) = (l, AtCheck).
Proof.
  intros Hf. induction fails as [|e fails IH]; intros H; [reflexivity|].
  simpl in H. apply andb_true_iff in H as [He H]. apply negb_true_iff in He.
  change (poll_rounds (e :: fails))
    with ([WorkerStep e; WorkerStep e; WorkerStep e] ++ poll_rounds fails).
  unfold Localizer_run. rewrite run_events_app.
  fold (Localizer_run [WorkerStep e; WorkerStep e; WorkerStep e]).
  rewrite Localizer_failed_round by assumption. apply IH. exact H.
Qed.

Lemma PoseGetter_failed_rounds (g : PoseGetter) (n : nat) :
  pg_thread_running g = true -> pg_pose g = None ->
  PoseGetter_run (poll_rounds (replicate n None)) (g, AtCheck) = (g, AtCheck).
Proof.
  intros Hf Hp. induction n as [|n IH]; [reflexivity|].
  change (poll_rounds (replicate (S n) (@None PoseStamped)))
    with ([WorkerStep None; WorkerStep None; WorkerStep None]
            ++ poll_rounds (replicate n (@None PoseStamped))).
  unfold PoseGetter_run. rewrite run_events_app.
  replace (run_events PoseGetter_event [WorkerStep None; WorkerStep None; WorkerStep None]
             (g, AtCheck)) with (g, AtCheck); [exact IH|].
  unfold run_events. simpl. rewrite Hf. simpl.
  destruct g as [nd fl po]. simpl in *. subst. reflexivity.
Qed.

(** Failed lookups are retried in silence.  After activation, any number of
    rounds whose lookup fails (TransformException, a pose out of tolerance, no
    pose) leave no trace on the node; the first lookup that completes puts it
    in SUCCESS and ends the worker.  The localizer logs one line; the pose
    getter has the pose found in its ?pose output. *)
Theorem poll_worker_retries_then_succeeds :
  (forall (l : Localizer) (fails : list TfLookup) (e : TfLookup),
      forallb (fun e => negb (tf_completes e)) fails = true ->
      tf_completes e = true ->
      Localizer_run (poll_rounds fails ++ [WorkerStep e; WorkerStep e])
                    (WaitForLocalizationTF_on_init l) =
        (mkLocalizer
           (set_status SUCCESS
              (log_info "WaitForLocalizationTF - localization pose ok"
                 (set_status SUSPENDED (lo_node l)))) true, Exited)) /\
  (forall (g : PoseGetter) (n : nat) (pose : PoseStamped),
      pg_pose g = None ->
      PoseGetter_run (poll_rounds (replicate n None)
                        ++ [WorkerStep (Some pose); WorkerStep (Some pose)])
                     (GetCurrentPose_on_init g) =
        (mkPoseGetter (set_status SUCCESS (set_status SUSPENDED (pg_node g))) true (Some pose),
         Exited)).
Proof.
  split.
  - intros l fails e Hfails He. unfold Localizer_run. rewrite run_events_app.
    fold (Localizer_run (poll_rounds fails)).
    unfold WaitForLocalizationTF_on_init.
    rewrite Localizer_failed_rounds by (try assumption; reflexivity).
    destruct e as [|[|]]; simpl in He; try discriminate. reflexivity.
  - intros g n pose Hp. unfold PoseGetter_run at 1. rewrite run_events_app.
    fold (PoseGetter_run (poll_rounds (replicate n (@None PoseStamped)))).
    unfold GetCurrentPose_on_init.
    rewrite PoseGetter_failed_rounds by (try assumption; reflexivity).
    reflexivity.
Qed.

Lemma poll_worker_retries_then_succeeds_witness :
  Localizer_run (poll_rounds [TfRaised; TfFound false] ++
                 [WorkerStep (TfFound true); WorkerStep (TfFound true)])
                (WaitForLocalizationTF_on_init WaitForLocalizationTF_init) =
    (mkLocalizer
       (set_status SUCCESS
          (log_info "WaitForLocalizationTF - localization pose ok"
             (set_status SUSPENDED (lo_node WaitForLocalizationTF_init)))) true, Exited).
Proof.
  exact (proj1 poll_worker_retries_then_succeeds WaitForLocalizationTF_init
           [TfRaised; TfFound false] (TfFound true) eq_refl eq_refl).
Defined.

Lemma Localizer_step_writes (e : TfLookup) (s : Localizer * WorkerPc) :
  let s' := WaitForLocalizationTF_worker_step e s in
  lo_thread_running (fst s') = lo_thread_running (fst s) /\
  contingency_message (lo_node (fst s')) = contingency_message (lo_node (fst s)) /\
  timeout_ms (lo_node (fst s')) = timeout_ms (lo_node (fst s)) /\
  (status (lo_node (fst s')) = status (lo_node (fst s)) \/
   status (lo_node (fst s')) = SUCCESS).
Proof.
  destruct s as [l pc]. destruct pc; simpl; try tauto.
  - destruct (negb (lo_thread_running l)); simpl; tauto.
  - destruct e as [|[|]]; simpl; tauto.
Qed.

Lemma PoseGetter_step_writes (e : option PoseStamped) (s : PoseGetter * WorkerPc) :
  let s' := GetCurrentPose_worker_step e s in
  pg_thread_running (fst s') = pg_thread_running (fst s) /\
  contingency_message (pg_node (fst s')) = contingency_message (pg_node (fst s)) /\
  timeout_ms (pg_node (fst s')) = timeout_ms (pg_node (fst s)) /\
  (status (pg_node (fst s')) = status (pg_node (fst s)) \/
   status (pg_node (fst s')) = SUCCESS).
Proof.
  destruct s as [g pc]. destruct pc; simpl; try tauto.
  - destruct (negb (pg_thread_running g)); simpl; tauto.
  - destruct e; simpl; tauto.
Qed.

(** A poll worker never reports a failure: over any number of its steps,
    whatever the lookups return, it leaves the stop flag, the contingency
    message and the timeout of its node alone, and the only status it ever
    writes is SUCCESS.  FAILURE can only come from on_timeout. *)
Theorem poll_worker_only_writes_success :
  (forall (envs : list TfLookup) (s : Localizer * WorkerPc),
      let s' := Localizer_run (worker_steps envs) s in
      lo_thread_running (fst s') = lo_thread_running (fst s) /\
      contingency_message (lo_node (fst s')) = contingency_message (lo_node (fst s)) /\
      timeout_ms (lo_node (fst s')) = timeout_ms (lo_node (fst s)) /\
      (status (lo_node (fst s')) = status (lo_node (fst s)) \/
       status (lo_node (fst s')) = SUCCESS)) /\
  (forall (envs : list (option PoseStamped)) (s : PoseGetter * WorkerPc),
      let s' := PoseGetter_run (worker_steps envs) s in
      pg_thread_running (fst s') = pg_thread_running (fst s) /\
      contingency_message (pg_node (fst s')) = contingency_message (pg_node (fst s)) /\
      timeout_ms (pg_node (fst s')) = timeout_ms (pg_node (fst s)) /\
      (status (pg_node (fst s')) = status (pg_node (fst s)) \/
       status (pg_node (fst s')) = SUCCESS)).
Proof.
  split.
  - intros envs. induction envs as [|e envs IH]; intros s; [simpl; tauto|].
    cbv zeta. rewrite Localizer_run_cons.
    destruct (IH (WaitForLocalizationTF_worker_step e s)) as (-> & -> & -> & Hst).
    destruct (Localizer_step_writes e s) as (-> & -> & -> & Hst1).
    repeat split. destruct Hst as [-> | ->]; tauto.
  - intros envs. induction envs as [|e envs IH]; intros s; [simpl; tauto|].
    cbv zeta. rewrite PoseGetter_run_cons.
    destruct (IH (GetCurrentPose_worker_step e s)) as (-> & -> & -> & Hst).
    destruct (PoseGetter_step_writes e s) as (-> & -> & -> & Hst1).
    repeat split. destruct Hst as [-> | ->]; tauto.
Qed.

(** SUCCESS of GetCurrentPose comes with a pose.  Over every schedule of
    worker steps and timeouts after activation, whenever the node is in
    SUCCESS its ?pose output holds a pose and its worker has left the loop. *)
Theorem GetCurrentPose_success_has_pose
    (g : PoseGetter) (es : list (PollEvent (option PoseStamped))) :
  let s := PoseGetter_run es (GetCurrentPose_on_init g) in
  status (pg_node (fst s)) = SUCCESS -> is_Some (pg_pose (fst s)) /\ snd s = Exited.
Proof.
  cbv zeta.
  assert (Hinv : forall es s,
             (status (pg_node (fst s)) = SUCCESS -> is_Some (pg_pose (fst s)) /\ snd s = Exited) ->
             status (pg_node (fst (PoseGetter_run es s))) = SUCCESS ->
             is_Some (pg_pose (fst (PoseGetter_run es s))) /\ snd (PoseGetter_run es s) = Exited).
  { clear. intros es. induction es as [|e es IH]; intros s Hs; [exact Hs|].
    unfold PoseGetter_run, run_events in *. cbn [fold_left]. apply IH.
    destruct s as [g pc]. destruct e as [env|]; cbn [PoseGetter_event fst snd].
    - destruct pc; simpl in *; try exact Hs.
      + destruct (negb (pg_thread_running g)); simpl; intros H; destruct (Hs H); congruence.
      + destruct env; simpl; [eauto|]. intros H. destruct (Hs H). congruence.
      + intros H. destruct (Hs H). congruence.
    - unfold fire_timeout. destruct (terminal (status (pg_node g))) eqn:Ht; [exact Hs|].
      simpl. discriminate. }
  apply Hinv. simpl. discriminate.
Qed.

Lemma GetCurrentPose_success_has_pose_witness :
  let s := PoseGetter_run [WorkerStep None; TimeoutFires; WorkerStep (Some (mkPose "map" 3 4))]
                          (GetCurrentPose_on_init GetCurrentPose_init) in
  is_Some (pg_pose (fst s)) /\ snd s = Exited.
Proof.
  exact (GetCurrentPose_success_has_pose GetCurrentPose_init
           [WorkerStep None; TimeoutFires; WorkerStep (Some (mkPose "map" 3 4))] eq_refl).
Defined.






(** The thread dies at its second lookup: the node is still SUSPENDED, and a
    lookup that would have succeeded afterwards is never made. *)
Example WaitForLocalizationTF_dead_worker :
  let s := Localizer_answers_run
             [TfAnswered TfRaised; TfAnswered TfRaised; TfAnswered TfRaised;
              TfAnswered TfRaised; TfUncaught ValueError;
              TfAnswered (TfFound true); TfAnswered (TfFound true)]
             (WaitForLocalizationTF_on_init WaitForLocalizationTF_init) in
  snd s = Exited /\ status (lo_node (fst s)) = SUSPENDED.
Proof. split; reflexivity. Qed.

End PollWorkerRuns.

Section PoseWithCovariance.
Import Nav.

(** GetPoseWithCovFromPose builds a diagonal covariance.  With a ?pose, on_init
    returns, the node is in SUCCESS, the output has the header and the pose of
    the input and 36 covariance values, and entry (i, j) of the 6x6 matrix is
    ?var_x at (0,0), ?var_y at (1,1), ?var_yaw at (5,5) and zero elsewhere. *)
Theorem GetPoseWithCovFromPose_diagonal (n : CovNode) (pose : PoseStamped) :
  cn_pose n = Some pose ->
  exists m,
    GetPoseWithCovFromPose_on_init n =
      (Return tt, mkCovNode (set_status SUCCESS (cn_node n)) (cn_pose n) (cn_var_x n)
                            (cn_var_y n) (cn_var_yaw n) (Some m)) /\
    pwc_header m = frame_id pose /\
    pwc_pose m = (pos_x pose, pos_y pose) /\
    length (pwc_covariance m) = 36%nat /\
    forall i j, (i < 6)%nat -> (j < 6)%nat ->
      cov_entry m i j =
        Some (if bool_decide (i = j /\ i = 0%nat) then cn_var_x n
              else if bool_decide (i = j /\ i = 1%nat) then cn_var_y n
              else if bool_decide (i = j /\ i = 5%nat) then cn_var_yaw n
              else 0).
Proof.
  intros Hp. unfold GetPoseWithCovFromPose_on_init. simpl. rewrite Hp.
  eexists. split; [reflexivity|]. simpl. repeat split.
  intros i j Hi Hj. unfold cov_entry. simpl.
  do 6 (destruct i as [|i]; [do 6 (destruct j as [|j]; [reflexivity|]); lia|]). lia.
Qed.

Lemma GetPoseWithCovFromPose_diagonal_witness :
  exists m,
    GetPoseWithCovFromPose_on_init
      (mkCovNode new_tree_node (Some (mkPose "map" 10 20)) 4 9 1 None) =
      (Return tt, mkCovNode (set_status SUCCESS new_tree_node) (Some (mkPose "map" 10 20))
                            4 9 1 (Some m)) /\
    pwc_header m = "map" /\
    pwc_pose m = (10, 20) /\
    length (pwc_covariance m) = 36%nat /\
    forall i j, (i < 6)%nat -> (j < 6)%nat ->
      cov_entry m i j =
        Some (if bool_decide (i = j /\ i = 0%nat) then 4
              else if bool_decide (i = j /\ i = 1%nat) then 9
              else if bool_decide (i = j /\ i = 5%nat) then 1
              else 0).
Proof.
  exact (GetPoseWithCovFromPose_diagonal
           (mkCovNode new_tree_node (Some (mkPose "map" 10 20)) 4 9 1 None)
           (mkPose "map" 10 20) eq_refl).
Defined.

(** Without a ?pose, on_init raises AttributeError: the status, the message
    and the inputs of the node stay, and the output is the default message
    (no header, all 36 covariance values zero), not a pose. *)
Theorem GetPoseWithCovFromPose_without_pose (n : CovNode) :
  cn_pose n = None ->
  GetPoseWithCovFromPose_on_init n =
    (Raise AttributeError,
     mkCovNode (cn_node n) None (cn_var_x n) (cn_var_y n) (cn_var_yaw n)
               (Some default_pose_with_cov)) /\
  forall i, (i < 36)%nat -> pwc_covariance default_pose_with_cov !! i = Some 0.
Proof.
  intros Hp. split.
  - destruct n as [nd po vx vy vyaw out]. simpl in Hp. subst po. reflexivity.
  - intros i Hi. unfold default_pose_with_cov. cbn [pwc_covariance].
    apply lookup_replicate. split; [reflexivity | exact Hi].
Qed.

Lemma GetPoseWithCovFromPose_without_pose_witness :
  GetPoseWithCovFromPose_on_init (mkCovNode new_tree_node None 4 9 1 None) =
    (Raise AttributeError,
     mkCovNode new_tree_node None 4 9 1 (Some default_pose_with_cov)) /\
  forall i, (i < 36)%nat -> pwc_covariance default_pose_with_cov !! i = Some 0.
Proof.
  exact (GetPoseWithCovFromPose_without_pose (mkCovNode new_tree_node None 4 9 1 None) eq_refl).
Defined.

End PoseWithCovariance.

Section FeedbackNodes.
Import Nav.
Context {Twist : Type}
        (remaining : Path -> PoseStamped -> Z)
        (travel_time : Twist -> Z -> Z).

Lemma feedback_tick_node (e : option Path * option PoseStamped * Z * Twist) (n : FeedbackNode) :
  fn_node (feedback_tick remaining travel_time e n) = fn_node n /\
  fn_start_time (feedback_tick remaining travel_time e n) = fn_start_time n.
Proof. destruct e as [[[path pose] now] twist]. split; reflexivity. Qed.

(** CreateFollowPathFeedback never completes by itself: over any run of ticks,
    with or without a path and a pose, the status, the contingency message and
    the start time of the node are the ones it had, so a node that is RUNNING
    stays RUNNING. *)
Theorem CreateFollowPathFeedback_never_completes
    (es : list (option Path * option PoseStamped * Z * Twist)) (n : FeedbackNode) :
  fn_node (feedback_run remaining travel_time es n) = fn_node n /\
  fn_start_time (feedback_run remaining travel_time es n) = fn_start_time n.
Proof.
  revert n. induction es as [|e es IH]; intros n; [split; reflexivity|].
  unfold feedback_run, run_events in *. cbn [fold_left].
  destruct (IH (feedback_tick remaining travel_time e n)) as [-> ->].
  apply feedback_tick_node.
Qed.

(** A tick without a current pose keeps the pose and the remaining distance
    of the feedback from the tick before, and still computes the estimated
    time from that old distance; the navigation time is the whole seconds
    since the start and the number of recoveries is 0 after every tick. *)
Theorem CreateFollowPathFeedback_stale_without_pose
    (now : Z) (twist : Twist) (n : FeedbackNode) :
  let fb := fn_feedback (CreateFollowPathFeedback_on_tick remaining travel_time None now twist n) in
  fb_current_pose fb = fb_current_pose (fn_feedback n) /\
  fb_distance_remaining fb = fb_distance_remaining (fn_feedback n) /\
  fb_estimated_time_remaining_sec fb =
    travel_time twist (fb_distance_remaining (fn_feedback n)) /\
  fb_navigation_time_sec fb = Z.quot (now - fn_start_time n) 1000000 /\
  fb_number_of_recoveries fb = 0.
Proof.
  unfold CreateFollowPathFeedback_on_tick. simpl.
  destruct (fn_path n); repeat split.
Qed.

(** A tick with a current pose: the feedback has this pose; the remaining
    distance is computed exactly when the node has a path, and is kept
    otherwise; the estimated time is computed from the distance the feedback
    then has. *)
Theorem CreateFollowPathFeedback_with_pose
    (pose : PoseStamped) (now : Z) (twist : Twist) (n : FeedbackNode) :
  let fb := fn_feedback
              (CreateFollowPathFeedback_on_tick remaining travel_time (Some pose) now twist n) in
  fb_current_pose fb = pose /\
  fb_distance_remaining fb =
    match fn_path n with
    | Some path => remaining path pose
    | None => fb_distance_remaining (fn_feedback n)
    end /\
  fb_estimated_time_remaining_sec fb = travel_time twist (fb_distance_remaining fb) /\
  fb_number_of_recoveries fb = 0.
Proof.
  unfold CreateFollowPathFeedback_on_tick. simpl.
  destruct (fn_path n); repeat split.
Qed.

End FeedbackNodes.

(** * Further properties of the knowledge-store relay *)

Section KnowledgeRelayLogger.
Import KbTiny.

(** On an object that has no get_logger (an instance of class Kb itself is
    one), the constructor and query_callback raise AttributeError for every
    file name, request and store: exec is never reached, the response is not
    produced and nothing is logged. *)
Theorem Kb_without_logger_raises
    (dyn : string -> KbObject -> Response -> ExecOutcome) (self : KbObject)
    (kbfile request : string) (response : Response) :
  has_attribute "get_logger" self = false ->
  Kb_init self kbfile = (Raise AttributeError, self) /\
  query_callback dyn self request response = (Raise AttributeError, self).
Proof.
  intros H. unfold Kb_init, query_callback, logger_call. rewrite H. split; reflexivity.
Qed.

Lemma Kb_without_logger_raises_witness :
  Kb_init plain_Kb "kb.json" = (Raise AttributeError, plain_Kb) /\
  query_callback empty_db plain_Kb "all()" fresh_response = (Raise AttributeError, plain_Kb).
Proof.
  exact (Kb_without_logger_raises empty_db plain_Kb "kb.json" "all()" fresh_response eq_refl).
Defined.

End KnowledgeRelayLogger.

(** * Further properties of SimpleKb *)

Section SimpleKbLoad.
Import SimpleKb.
Context {Value : Type}.

Lemma load_entries_spec (content : list (string * gmap string Value))
    (h0 : gmap nat (gmap string Value)) :
  let d := fst (load_entries content h0) in
  let h := snd (load_entries content h0) in
  (forall u r, d !! u = Some r -> r ∈ dom h /\ r ∉ dom h0) /\
  (forall r, r ∈ dom h0 -> h !! r = h0 !! r) /\
  dom h0 ⊆ dom h /\
  entry_at h <$> d = list_to_map content /\
  (forall u1 u2 r, d !! u1 = Some r -> d !! u2 = Some r -> u1 = u2).
Proof.
  induction content as [|[u e] content IH]; cbv zeta.
  - simpl. split; [|split; [|split; [|split]]].
    + intros u r H. rewrite lookup_empty in H. discriminate.
    + reflexivity.
    + reflexivity.
    + rewrite fmap_empty. reflexivity.
    + intros u1 u2 r H. rewrite lookup_empty in H. discriminate.
  - cbv zeta in IH. unfold load_entries in *. cbn [foldr].
    destruct (foldr _ _ content) as [d h]. cbn [fst snd] in *.
    destruct IH as (Hran & Hold & Hsub & Hsnap & Hinj).
    pose proof (is_fresh (dom h)) as Hfresh.
    set (r0 := fresh (dom h)) in *.
    assert (Hr0 : r0 ∉ dom h0) by (intros Hin; apply Hfresh, Hsub, Hin).
    split; [|split; [|split; [|split]]].
    + intros u' r H. destruct (decide (u = u')) as [<-|Hne].
      * rewrite lookup_insert_eq in H. injection H as <-.
        split; [apply elem_of_dom; rewrite lookup_insert_eq; eauto | exact Hr0].
      * rewrite lookup_insert_ne in H by exact Hne.
        destruct (Hran _ _ H) as [Hin Hnin].
        split; [rewrite dom_insert; apply elem_of_union_r; exact Hin | exact Hnin].
    + intros r Hin. rewrite lookup_insert_ne by (intros ->; contradiction). apply Hold, Hin.
    + rewrite dom_insert. etransitivity; [exact Hsub | apply union_subseteq_r].
    + rewrite fmap_insert. cbn [list_to_map foldr]. rewrite <- Hsnap.
      unfold entry_at at 1. rewrite lookup_insert_eq. cbn [default]. f_equal.
      apply map_fmap_ext. intros u' r Hu'. unfold entry_at.
      rewrite lookup_insert_ne; [reflexivity|].
      intros ->. apply Hfresh. apply (Hran _ _ Hu').
    + intros u1 u2 r H1 H2.
      destruct (decide (u = u1)) as [<-|Hne1]; destruct (decide (u = u2)) as [<-|Hne2];
        try reflexivity.
      * rewrite lookup_insert_eq in H1. injection H1 as <-.
        rewrite lookup_insert_ne in H2 by exact Hne2.
        exfalso. apply Hfresh. apply (Hran _ _ H2).
      * rewrite lookup_insert_eq in H2. injection H2 as <-.
        rewrite lookup_insert_ne in H1 by exact Hne1.
        exfalso. apply Hfresh. apply (Hran _ _ H1).
      * rewrite lookup_insert_ne in H1 by exact Hne1.
        rewrite lookup_insert_ne in H2 by exact Hne2. eapply Hinj; eassumption.
Qed.

(** The store and the world after __init__. *)
Lemma init_file_spec (filename : string) (sync : bool) (w : World (Value := Value)) :
  let kb := fst (__init__ filename sync w) in
  let w' := snd (__init__ filename sync w) in
  SimpleKb.filename kb = filename /\ sync_to_file kb = sync /\ files w' = files w /\
  (files w !! filename = None -> kb_dict kb = ∅ /\ count kb = 0%nat /\ w' = w) /\
  (forall content, files w !! filename = Some content ->
     snapshot kb w' = content /\
     count kb = size content /\
     unshared kb /\
     (forall u r, kb_dict kb !! u = Some r -> r ∉ dom (heap w)) /\
     (forall r, r ∈ dom (heap w) -> heap w' !! r = heap w !! r)).
Proof.
  cbv zeta. unfold __init__.
  destruct (files w !! filename) as [content|] eqn:Hf.
  - pose proof (load_entries_spec (map_to_list content) (heap w)) as Hs. cbv zeta in Hs.
    destruct (load_entries (map_to_list content) (heap w)) as [d h]. cbn [fst snd] in *.
    destruct Hs as (Hran & Hold & Hsub & Hsnap & Hinj).
    split; [reflexivity|]. split; [reflexivity|]. split; [reflexivity|].
    split; [discriminate|]. intros c Hc. inversion Hc; subst c.
    assert (Hsn : snapshot (mkKb filename sync d) (mkWorld h (files w)) = content).
    { unfold snapshot. simpl. rewrite Hsnap. apply list_to_map_to_list. }
    split; [exact Hsn|]. split.
    { unfold count. simpl. rewrite <- Hsn. unfold snapshot. simpl.
      rewrite map_size_fmap. reflexivity. }
    split; [exact Hinj|]. split; [|exact Hold].
    intros u r Hu. apply (Hran _ _ Hu).
  - cbn [fst snd]. split; [reflexivity|]. split; [reflexivity|]. split; [reflexivity|].
    split; [intros _; repeat split; reflexivity | intros c Hc; discriminate].
Qed.

(** Opening a store.  When the file cannot be opened the store is empty and
    nothing else changes.  When the file holds a mapping, the store has
    exactly its uuids with its contents, every entry is a dict object of its
    own (none shared between uuids, none that existed before), and the
    objects that existed before are untouched. *)
Theorem init_loads_file (filename : string) (sync : bool) (w : World (Value := Value)) :
  let kb := fst (__init__ filename sync w) in
  let w' := snd (__init__ filename sync w) in
  SimpleKb.filename kb = filename /\ sync_to_file kb = sync /\ files w' = files w /\
  (files w !! filename = None -> kb_dict kb = ∅ /\ count kb = 0%nat /\ w' = w) /\
  (forall content, files w !! filename = Some content ->
     snapshot kb w' = content /\
     count kb = size content /\
     unshared kb /\
     (forall u r, kb_dict kb !! u = Some r -> r ∉ dom (heap w)) /\
     (forall r, r ∈ dom (heap w) -> heap w' !! r = heap w !! r)).
Proof. exact (init_file_spec filename sync w). Qed.


End SimpleKbLoad.

Section SimpleKbLoadExamples.
Import SimpleKb.

Lemma init_loads_file_witness :
  let w : World (Value := JValue) := mkWorld ∅ ∅ in
  kb_dict (fst (__init__ "kb.json" false w)) = ∅ /\
  count (fst (__init__ "kb.json" false w)) = 0%nat /\
  snd (__init__ "kb.json" false w) = w.
Proof.
  exact (proj1 (proj2 (proj2 (proj2 (init_loads_file "kb.json" false (mkWorld (Value := JValue) ∅ ∅))))) eq_refl).
Defined.

End SimpleKbLoadExamples.

Section SimpleKbQueries.
Import SimpleKb.
Context {Value : Type} (py_eq : Value -> Value -> bool).

Lemma get_uuids_bound (flt : gmap string Value) (kb : Kb) (w : World) (uuid : string) :
  uuid ∈ __get_uuids py_eq flt kb w -> is_Some (kb_dict kb !! uuid).
Proof. intros H. apply get_uuids_spec in H as (r & Hr & _). eauto. Qed.

Lemma omap_length_all {A B} (f : A -> option B) (l : list A) :
  (forall x, x ∈ l -> is_Some (f x)) -> length (omap f l) = length l.
Proof.
  induction l as [|a l IH]; intros H; [reflexivity|].
  simpl. destruct (H a) as [b Hb]; [left|]. rewrite Hb. simpl. f_equal.
  apply IH. intros x Hx. apply H. right. exact Hx.
Qed.

Lemma filter_all {A} (P : A -> Prop) `{forall x, Decision (P x)} (l : list A) :
  (forall x, x ∈ l -> P x) -> filter P l = l.
Proof.
  induction l as [|a l IH]; intros Hall; [reflexivity|].
  rewrite filter_cons_True by (apply Hall; left). f_equal.
  apply IH. intros x Hx. apply Hall. right. exact Hx.
Qed.

(** The entries read returns, and how many. *)
Lemma read_matches_spec (flt : gmap string Value) (kb : Kb) (w : World) :
  (forall r, r ∈ read py_eq flt kb w <->
     exists uuid, kb_dict kb !! uuid = Some r /\ matches py_eq flt (entry_at (heap w) r)) /\
  (length (read py_eq flt kb w) <= count kb)%nat /\
  length (read py_eq ∅ kb w) = count kb.
Proof.
  assert (Hlen : forall f, length (read py_eq f kb w) = length (__get_uuids py_eq f kb w)).
  { intros f. unfold read. apply omap_length_all. intros x Hx. eapply get_uuids_bound, Hx. }
  split; [|split].
  - intros r. unfold read. rewrite list_elem_of_omap. split.
    + intros (uuid & Hin & Hr). apply get_uuids_spec in Hin as (r' & Hr' & Hm).
      exists uuid. split; [exact Hr|].
      assert (r' = r) as -> by congruence. exact Hm.
    + intros (uuid & Hr & Hm). exists uuid. split; [|exact Hr].
      apply get_uuids_spec. eauto.
  - rewrite Hlen. unfold __get_uuids, count. rewrite length_fmap.
    etransitivity; [apply length_filter|]. rewrite length_map_to_list. reflexivity.
  - rewrite Hlen. unfold __get_uuids, count. rewrite length_fmap.
    rewrite filter_all; [apply length_map_to_list|].
    intros [uuid r] _. simpl. unfold match_dict. rewrite map_imap_empty. reflexivity.
Qed.

(** read returns exactly the entries that match the filter: a dict object is
    in the result if and only if some uuid of the store is bound to it and
    every key of the filter is in it with an equal value.  The result never
    has more entries than the store, and with the empty filter it has one
    entry per uuid of the store. *)
Theorem read_returns_matches (flt : gmap string Value) (kb : Kb) (w : World) :
  (forall r, r ∈ read py_eq flt kb w <->
     exists uuid, kb_dict kb !! uuid = Some r /\ matches py_eq flt (entry_at (heap w) r)) /\
  (length (read py_eq flt kb w) <= count kb)%nat /\
  length (read py_eq ∅ kb w) = count kb.
Proof. exact (read_matches_spec flt kb w). Qed.

(** create then read.  With a uuid that is not in the store, create adds one
    uuid bound to the caller's dict itself and changes no dict; a later read
    returns this dict whenever it matches the filter, and everything that
    read returned before. *)
Theorem create_then_read
    (new_uuid : string) (entry : nat) (flt : gmap string Value) (kb : Kb) (w : World) :
  kb_dict kb !! new_uuid = None ->
  let kb' := fst (create new_uuid entry kb w) in
  let w' := snd (create new_uuid entry kb w) in
  count kb' = S (count kb) /\
  kb_dict kb' !! new_uuid = Some entry /\
  heap w' = heap w /\
  (matches py_eq flt (entry_at (heap w) entry) -> entry ∈ read py_eq flt kb' w') /\
  (forall r, r ∈ read py_eq flt kb w -> r ∈ read py_eq flt kb' w').
Proof.
  intros Hfresh. cbv zeta.
  set (kb' := mkKb (filename kb) (sync_to_file kb) (<[new_uuid := entry]> (kb_dict kb))).
  set (w' := __save (sync_to_file kb) kb' w).
  change (create new_uuid entry kb w) with (kb', w'). cbn [fst snd].
  assert (Hheap : heap w' = heap w) by (subst w'; apply save_keeps_heap).
  split; [unfold count; simpl; apply map_size_insert_None; exact Hfresh|].
  split; [simpl; apply lookup_insert_eq|]. split; [exact Hheap|].
  split.
  - intros Hm. apply (proj1 (read_matches_spec flt kb' w')).
    exists new_uuid. rewrite Hheap. split; [simpl; apply lookup_insert_eq | exact Hm].
  - intros r Hr. apply (proj1 (read_matches_spec flt kb w)) in Hr as (uuid & Hu & Hm).
    apply (proj1 (read_matches_spec flt kb' w')).
    exists uuid. rewrite Hheap. split; [|exact Hm].
    simpl. rewrite lookup_insert_ne; [exact Hu|]. intros <-. congruence.
Qed.

Lemma update_all_other upd (d : gmap string nat) (uuids : list string) (r' : nat) :
  forall h : gmap nat (gmap string Value),
    (forall uuid, uuid ∈ uuids -> d !! uuid <> Some r') ->
    entry_at (update_all upd d h uuids) r' = entry_at h r'.
Proof.
  induction uuids as [|a uuids IH]; intros h Hno; [reflexivity|].
  unfold update_all in *. cbn [foldl].
  rewrite IH by (intros uuid Hin; apply Hno; right; exact Hin).
  destruct (d !! a) as [ra|] eqn:Ha; [|reflexivity].
  rewrite (update_entry_spec py_eq). rewrite decide_False; [reflexivity|].
  intros ->. apply (Hno a); [left | exact Ha].
Qed.

(** The heap after an update that matched. *)
Lemma update_matched_heap
    (new_uuid : string) (flt : gmap string Value) (upd : nat) (kb : Kb) (w : World) :
  (exists uuid r, kb_dict kb !! uuid = Some r /\ matches py_eq flt (entry_at (heap w) r)) ->
  let w' := snd (update py_eq new_uuid flt upd kb w) in
  let u := entry_at (heap w) upd in
  (forall r, (exists uuid, kb_dict kb !! uuid = Some r /\
                           matches py_eq flt (entry_at (heap w) r)) ->
             entry_at (heap w') r = u ∪ entry_at (heap w) r /\
             forall k, u !! k = None -> entry_at (heap w') r !! k = entry_at (heap w) r !! k) /\
  (forall r, ~ (exists uuid, kb_dict kb !! uuid = Some r /\
                             matches py_eq flt (entry_at (heap w) r)) ->
             entry_at (heap w') r = entry_at (heap w) r) /\
  entry_at (heap w') upd = u.
Proof.
  intros Hsome. cbv zeta. unfold update.
  apply get_uuids_nonempty in Hsome. rewrite Hsome. cbn [fst snd].
  rewrite save_keeps_heap. cbn [heap].
  destruct (update_all_spec py_eq upd (kb_dict kb) (__get_uuids py_eq flt kb w) (heap w))
    as (Hu & _ & Hin).
  split; [|split; [|exact Hu]].
  - intros r (uuid & Hr & Hm).
    assert (Heq := Hin uuid r (proj2 (get_uuids_spec py_eq flt kb w uuid)
                                     (ex_intro _ r (conj Hr Hm))) Hr).
    split; [exact Heq|]. intros k Hk. rewrite Heq. apply lookup_union_r. exact Hk.
  - intros r Hno. apply update_all_other. intros uuid Hin' Hr. apply Hno.
    apply get_uuids_spec in Hin' as (r' & Hr' & Hm). exists uuid.
    split; [exact Hr|]. assert (r' = r) as -> by congruence. exact Hm.
Qed.

(** What update changes when entries match.  The dict of every matching
    entry becomes the update laid over it: the keys of the update have the
    update's values and every other key keeps its value.  A dict that no
    matching uuid is bound to is left as it was, and so is the update dict
    itself. *)
Theorem update_changes_only_matches
    (new_uuid : string) (flt : gmap string Value) (upd : nat) (kb : Kb) (w : World) :
  (exists uuid r, kb_dict kb !! uuid = Some r /\ matches py_eq flt (entry_at (heap w) r)) ->
  let w' := snd (update py_eq new_uuid flt upd kb w) in
  let u := entry_at (heap w) upd in
  (forall r, (exists uuid, kb_dict kb !! uuid = Some r /\
                           matches py_eq flt (entry_at (heap w) r)) ->
             entry_at (heap w') r = u ∪ entry_at (heap w) r /\
             forall k, u !! k = None -> entry_at (heap w') r !! k = entry_at (heap w) r !! k) /\
  (forall r, ~ (exists uuid, kb_dict kb !! uuid = Some r /\
                             matches py_eq flt (entry_at (heap w) r)) ->
             entry_at (heap w') r = entry_at (heap w) r) /\
  entry_at (heap w') upd = u.
Proof. exact (update_matched_heap new_uuid flt upd kb w). Qed.

(** update then read.  When == is reflexive on the values of the update
    mapping, a read with that mapping as the filter finds an entry after the
    update, whether the update matched entries or inserted one. *)
Theorem update_then_read
    (new_uuid : string) (flt : gmap string Value) (upd : nat) (kb : Kb) (w : World) :
  (forall k v, entry_at (heap w) upd !! k = Some v -> py_eq v v = true) ->
  let s' := update py_eq new_uuid flt upd kb w in
  exists r, r ∈ read py_eq (entry_at (heap w) upd) (fst s') (snd s').
Proof.
  intros Hrefl. cbv zeta.
  destruct (0 <? length (__get_uuids py_eq flt kb w))%nat eqn:Hlen.
  - pose proof (proj1 (get_uuids_nonempty py_eq flt kb w) Hlen) as Hsome.
    destruct (update_matched_heap new_uuid flt upd kb w Hsome) as (Hm & _ & _).
    destruct Hsome as (uuid & r & Hr & Hmatch).
    destruct (Hm r (ex_intro _ uuid (conj Hr Hmatch))) as [Heq _].
    exists r. apply (proj1 (read_matches_spec _ _ _)). exists uuid. split.
    + unfold update. rewrite Hlen. exact Hr.
    + rewrite Heq. intros k v Hk. exists v. split; [|eauto].
      apply lookup_union_Some_l. exact Hk.
  - exists upd. apply (proj1 (read_matches_spec _ _ _)). exists new_uuid.
    unfold update. rewrite Hlen. cbn [fst snd]. rewrite save_keeps_heap. split.
    + simpl. apply lookup_insert_eq.
    + intros k v Hk. exists v. eauto.
Qed.


Lemma matches_empty (e : gmap string Value) : matches py_eq ∅ e.
Proof. intros k fv H. rewrite lookup_empty in H. discriminate. Qed.

(** The empty filter matches every entry: on a store that is not empty,
    update with the empty filter lays the update over the dict of every uuid
    and adds none; on an empty store it inserts the update as the only
    entry. *)
Theorem update_empty_filter (new_uuid : string) (upd : nat) (kb : Kb) (w : World) :
  let s' := update py_eq new_uuid ∅ upd kb w in
  (kb_dict kb <> ∅ ->
     kb_dict (fst s') = kb_dict kb /\
     forall uuid r, kb_dict kb !! uuid = Some r ->
       entry_at (heap (snd s')) r = entry_at (heap w) upd ∪ entry_at (heap w) r) /\
  (kb_dict kb = ∅ -> kb_dict (fst s') = {[new_uuid := upd]} /\ heap (snd s') = heap w).
Proof.
  cbv zeta. split.
  - intros Hne. apply map_choose in Hne as (uuid0 & r0 & H0).
    assert (Hsome : exists uuid r, kb_dict kb !! uuid = Some r /\
                                   matches py_eq ∅ (entry_at (heap w) r)).
    { exists uuid0, r0. split; [exact H0 | apply matches_empty]. }
    split.
    + unfold update. rewrite (proj2 (get_uuids_nonempty py_eq ∅ kb w) Hsome). reflexivity.
    + intros uuid r Hr.
      destruct (update_matched_heap new_uuid ∅ upd kb w Hsome) as (Hm & _ & _).
      apply Hm. exists uuid. split; [exact Hr | apply matches_empty].
  - intros Hempty. unfold update.
    destruct (0 <? length (__get_uuids py_eq ∅ kb w))%nat eqn:Hlen.
    + apply get_uuids_nonempty in Hlen as (uuid & r & Hr & _).
      rewrite Hempty, lookup_empty in Hr. discriminate.
    + cbn [fst snd]. rewrite save_keeps_heap. simpl. rewrite Hempty. split; reflexivity.
Qed.

End SimpleKbQueries.

Section SimpleKbQueryExamples.
Import SimpleKb.

Lemma create_then_read_witness :
  let kb' := fst (create "u2" 2 example_kb example_world) in
  let w' := snd (create "u2" 2 example_kb example_world) in
  count kb' = S (count example_kb) /\
  kb_dict kb' !! "u2" = Some 2%nat /\
  heap w' = heap example_world /\
  (matches jvalue_eq robot_filter (entry_at (heap example_world) 2) ->
   2%nat ∈ read jvalue_eq robot_filter kb' w') /\
  (forall r, r ∈ read jvalue_eq robot_filter example_kb example_world ->
             r ∈ read jvalue_eq robot_filter kb' w').
Proof.
  exact (create_then_read jvalue_eq "u2" 2 robot_filter example_kb example_world eq_refl).
Defined.

Lemma update_changes_only_matches_witness :
  let w' := snd (update jvalue_eq "u2" robot_filter 2 example_kb example_world) in
  let u := entry_at (heap example_world) 2 in
  (forall r, (exists uuid, kb_dict example_kb !! uuid = Some r /\
                           matches jvalue_eq robot_filter (entry_at (heap example_world) r)) ->
             entry_at (heap w') r = u ∪ entry_at (heap example_world) r /\
             forall k, u !! k = None ->
                       entry_at (heap w') r !! k = entry_at (heap example_world) r !! k) /\
  (forall r, ~ (exists uuid, kb_dict example_kb !! uuid = Some r /\
                             matches jvalue_eq robot_filter (entry_at (heap example_world) r)) ->
             entry_at (heap w') r = entry_at (heap example_world) r) /\
  entry_at (heap w') 2 = u.
Proof.
  exact (update_changes_only_matches jvalue_eq "u2" robot_filter 2 example_kb example_world
           example_some_match).
Defined.

Lemma jvalue_eq_refl (v : JValue) : jvalue_eq v v = true.
Proof.
  destruct v as [|b|n|s]; simpl.
  - reflexivity.
  - destruct b; reflexivity.
  - apply Z.eqb_refl.
  - apply String.eqb_refl.
Qed.

Lemma update_then_read_witness :
  let s' := update jvalue_eq "u2" arm_filter 2 example_kb example_world in
  exists r, r ∈ read jvalue_eq (entry_at (heap example_world) 2) (fst s') (snd s').
Proof.
  exact (update_then_read jvalue_eq "u2" arm_filter 2 example_kb example_world
           (fun k v _ => jvalue_eq_refl v)).
Defined.

Lemma update_empty_filter_witness :
  kb_dict (fst (update jvalue_eq "u2" ∅ 2 example_kb example_world)) = kb_dict example_kb /\
  forall uuid r, kb_dict example_kb !! uuid = Some r ->
    entry_at (heap (snd (update jvalue_eq "u2" ∅ 2 example_kb example_world))) r =
    entry_at (heap example_world) 2 ∪ entry_at (heap example_world) r.
Proof.
  refine (proj1 (update_empty_filter jvalue_eq "u2" 2 example_kb example_world) _).
  intros H. apply (f_equal (fun d : gmap string nat => d !! "u1")) in H. discriminate H.
Defined.

End SimpleKbQueryExamples.

(** * SimpleKb and its file *)

Section SimpleKbOnDisk.
Import SimpleKb.
Import SimpleKbDisk.
Context {Value : Type} (py_eq : Value -> Value -> bool)
        (json_value : Value -> Result Value)
        (dump_order : gmap string (gmap string Value) -> list Value).

Lemma omap_all_none {A B} (f : A -> option B) (l : list A) :
  (forall x, x ∈ l -> f x = None) -> omap f l = [].
Proof.
  induction l as [|a l IH]; intros H; [reflexivity|].
  simpl. rewrite (H a) by left. apply IH. intros x Hx. apply H. right. exact Hx.
Qed.

Lemma store_values_elem (m : gmap string (gmap string Value)) u e k v :
  m !! u = Some e -> e !! k = Some v -> v ∈ store_values m.
Proof.
  intros Hm He. unfold store_values. apply list_elem_of_bind. exists e. split.
  - apply list_elem_of_fmap. exists (k, v). split; [reflexivity|].
    apply elem_of_map_to_list. exact He.
  - apply list_elem_of_fmap. exists (u, e). split; [reflexivity|].
    apply elem_of_map_to_list. exact Hm.
Qed.

(** Values that json writes and reads back as they are leave the store as it
    is in the file. *)
Lemma json_dump_faithful (m : gmap string (gmap string Value)) :
  (forall v, v ∈ dump_order m -> v ∈ store_values m) ->
  (forall v, v ∈ store_values m -> json_value v = Return v) ->
  json_dump json_value dump_order m = Return m.
Proof.
  intros Hord H. unfold json_dump. rewrite omap_all_none.
  - simpl. f_equal. apply map_eq. intros u. rewrite lookup_fmap.
    destruct (m !! u) as [e|] eqn:Hu; [|reflexivity]. simpl. f_equal.
    apply map_eq. intros k. rewrite lookup_fmap.
    destruct (e !! k) as [v|] eqn:Hk; [|reflexivity]. simpl. f_equal.
    unfold json_read_back. rewrite (H v); [reflexivity|].
    eapply store_values_elem; eassumption.
  - intros v Hv. unfold json_error. rewrite (H v (Hord v Hv)). reflexivity.
Qed.

Lemma json_dump_size (m m' : gmap string (gmap string Value)) :
  json_dump json_value dump_order m = Return m' -> size m' = size m.
Proof.
  unfold json_dump. destruct (head _); [discriminate|].
  intros H. injection H as <-. apply map_size_fmap.
Qed.







(** Save and reopen.  After a write that succeeded, __init__ on the file of
    the store returns a store with the same uuids, whose contents are the
    saved contents as json reads them back (the saved contents themselves
    when json keeps every value), with a dict object of its own per uuid and
    the old objects untouched.  After a write that was cut, __init__ raises
    ValueError (the JSONDecodeError, not caught): the store cannot be
    reopened. *)
Theorem save_then_init_round_trip (kb : Kb) (dw : DiskWorld) (sync : bool) :
  (forall m, json_dump json_value dump_order (disk_snapshot kb dw) = Return m ->
     let dw1 := snd (__save json_value dump_order IoOk true kb dw) in
     exists kb2 dw2,
       __init__ (filename kb) sync dw1 = (Return kb2, dw2) /\
       disk_snapshot kb2 dw2 = m /\
       dom (kb_dict kb2) = dom (kb_dict kb) /\ count kb2 = count kb /\
       unshared kb2 /\
       (forall r, r ∈ dom (dw_heap dw) -> dw_heap dw2 !! r = dw_heap dw !! r) /\
       ((forall v, v ∈ dump_order (disk_snapshot kb dw) ->
                   v ∈ store_values (disk_snapshot kb dw)) ->
        (forall v, v ∈ store_values (disk_snapshot kb dw) -> json_value v = Return v) ->
        disk_snapshot kb2 dw2 = disk_snapshot kb dw)) /\
  (forall io, returns (fst (__save json_value dump_order io true kb dw)) = false ->
     io <> IoOk \/ (exists e, json_dump json_value dump_order (disk_snapshot kb dw) = Raise e)) /\
  (forall e dw1,
     (dw1 = snd (__save json_value dump_order (WriteFails e) true kb dw) \/
      (json_dump json_value dump_order (disk_snapshot kb dw) = Raise e /\
       dw1 = snd (__save json_value dump_order IoOk true kb dw))) ->
     __init__ (filename kb) sync dw1 = (Raise ValueError, dw1)).
Proof.
  split; [|split].
  - intros m Hm. cbv zeta. unfold __save. rewrite Hm. cbn [snd].
    unfold __init__, with_file. cbn [dw_files dw_heap]. rewrite lookup_insert_eq.
    pose proof (load_entries_spec (map_to_list m) (dw_heap dw)) as Hs. cbv zeta in Hs.
    destruct (load_entries (map_to_list m) (dw_heap dw)) as [d h]. cbn [fst snd] in Hs.
    destruct Hs as (Hran & Hold & Hsub & Hsnap & Hinj).
    eexists _, _. split; [reflexivity|].
    assert (Hsn : disk_snapshot (mkKb (filename kb) sync d)
                    (mkDiskWorld h (<[filename kb := JsonText m]> (dw_files dw))) = m).
    { unfold disk_snapshot. simpl. rewrite Hsnap. apply list_to_map_to_list. }
    assert (Hdom : dom d = dom (kb_dict kb)).
    { transitivity (dom m).
      - rewrite <- Hsn. unfold disk_snapshot. simpl. rewrite dom_fmap_L. reflexivity.
      - unfold json_dump in Hm. destruct (head _); [discriminate|].
        injection Hm as <-. unfold disk_snapshot. rewrite !dom_fmap_L. reflexivity. }
    split; [exact Hsn|]. split; [exact Hdom|].
    split; [unfold count; simpl; rewrite <- !size_dom, Hdom; reflexivity|].
    split; [exact Hinj|]. split; [exact Hold|].
    intros Hord Hv. rewrite Hsn. rewrite (json_dump_faithful _ Hord Hv) in Hm. congruence.
  - intros io Hr. unfold __save in Hr.
    destruct io; [right | left; discriminate | left; discriminate].
    destruct (json_dump json_value dump_order (disk_snapshot kb dw)) as [m|e]; [discriminate|]. eauto.
  - intros e dw1 [-> | [He ->]]; unfold __save; rewrite ?He; cbn [snd];
      unfold __init__, with_file; cbn [dw_files]; rewrite lookup_insert_eq; reflexivity.
Qed.

End SimpleKbOnDisk.

Section SimpleKbOnDiskExamples.
Import SimpleKb.
Import SimpleKbDisk.



Lemma save_then_init_round_trip_witness :
  let dw1 := snd (__save jvalue_json jvalue_order IoOk true example_kb example_disk) in
  exists kb2 dw2,
    __init__ (filename example_kb) false dw1 = (Return kb2, dw2) /\
    disk_snapshot kb2 dw2 = disk_snapshot example_kb example_disk /\
    dom (kb_dict kb2) = dom (kb_dict example_kb) /\ count kb2 = count example_kb /\
    unshared kb2 /\
    (forall r, r ∈ dom (dw_heap example_disk) ->
               dw_heap dw2 !! r = dw_heap example_disk !! r) /\
    ((forall v, v ∈ jvalue_order (disk_snapshot example_kb example_disk) ->
                v ∈ store_values (disk_snapshot example_kb example_disk)) ->
     (forall v, v ∈ store_values (disk_snapshot example_kb example_disk) ->
                jvalue_json v = Return v) ->
     disk_snapshot kb2 dw2 = disk_snapshot example_kb example_disk).
Proof.
  refine (proj1 (save_then_init_round_trip jvalue_json jvalue_order example_kb example_disk false)
            (disk_snapshot example_kb example_disk) _).
  apply json_dump_faithful; [intros v H; exact H | intros v _; reflexivity].
Defined.


(** A store with a value json cannot write: create raises TypeError, the new
    entry is in the store, the file is cut and the store cannot be
    reopened from it. *)
Example create_unwritable_value :
  let json (v : JValue) := match v with JNull => Raise TypeError | _ => Return v end in
  let heap : gmap nat (gmap string JValue) := {[1%nat := {["x" := JNull]}]} in
  let r := create json store_values "u1" 1 IoOk (mkKb "kb.json" true ∅) (mkDiskWorld heap ∅) in
  fst r = Raise TypeError /\
  kb_dict (fst (snd r)) !! "u1" = Some 1%nat /\
  dw_files (snd (snd r)) !! "kb.json" = Some BrokenText /\
  fst (__init__ (Value := JValue) "kb.json" true (snd (snd r))) = Raise ValueError.
Proof. vm_compute. repeat split. Qed.

End SimpleKbOnDiskExamples.
